(** * Image source resolution of [app/components/expo_image/index.tsx]

    A shallow embedding of the header-attachment predicate
    [shouldAttachServerAuthHeaders] and of the [source] / [placeholder]
    computations of the [ExpoImage] and [ExpoImageBackground] components,
    together with the properties the design document states about them.

    Conventions of the embedding:
    - a JavaScript value that may be [undefined] (or [null]) is an [option];
    - a [try] block is a computation in the [completion] monad, [Throw]
      standing for a raised exception, and [try_catch] for [try ... catch];
    - header objects live in a store ([heap]) and descriptors hold them by
      reference, because line 63 and line 88 delete a property of an object
      that the caller may still hold;
    - strings are byte strings ([string] of the Standard Library). *)

From Stdlib Require Import Ascii NArith.
From stdpp Require Import gmap strings list fin_maps.

Open Scope string_scope.

(** ** Completions: a value, or a thrown exception *)

Inductive completion (A : Type) : Type :=
| Normal (a : A)
| Throw.
Arguments Normal {A} a.
Arguments Throw {A}.

Definition completion_bind {A B} (c : completion A) (k : A -> completion B) : completion B :=
  match c with
  | Normal a => k a
  | Throw => Throw
  end.

(** [try { body } catch { handler }] *)
Definition try_catch {A} (body : completion A) (handler : completion A) : completion A :=
  match body with
  | Normal a => Normal a
  | Throw => handler
  end.

#[global] Instance completion_mret : MRet completion := @Normal.
#[global] Instance completion_mbind : MBind completion :=
  fun A B k c => completion_bind c k.

(** ** The platform's URL class

    [new URL(s)] is provided by the JavaScript runtime, not by this
    repository.  The code only reads [origin] and [pathname] of a parsed
    URL, so the parser is an interface: a function that either throws or
    yields those two strings.  The one law the code relies on is that the
    empty string is not a URL (an absolute URL needs a scheme). *)

Record URL : Type := mkURL { origin : string; pathname : string }.

Class URLParser : Type := {
  new_URL : string -> completion URL;
  new_URL_empty : new_URL "" = Throw
}.

(** JavaScript truthiness of the values the code tests. *)
Definition truthy_string (s : string) : bool :=
  match s with
  | EmptyString => false
  | String _ _ => true
  end.

(** [string | undefined] *)
Definition truthy_opt_string (s : option string) : bool :=
  match s with
  | Some s => truthy_string s
  | None => false
  end.

(** [if (id)] with [id : string | undefined]: the string the guarded branch
    sees, if it is taken. *)
Definition truthy_id (id : option string) : option string :=
  match id with
  | Some i => if truthy_string i then Some i else None
  | None => None
  end.

(** an object reference or [undefined]: every object is truthy *)
Definition truthy_ref {A} (r : option A) : bool :=
  match r with
  | Some _ => true
  | None => false
  end.

(** [s.startsWith(p)] *)
Definition startsWith (p s : string) : bool := String.prefix p s.

Section OriginMatcher.
Context `{URLParser}.

(** The body of the [try] block, lines 26-33. *)
Definition shouldAttachServerAuthHeaders_try (uri serverUrl : string) : completion bool :=
  requestUrl ← new_URL uri;
  serverBaseUrl ← new_URL serverUrl;
  if negb (String.eqb (origin requestUrl) (origin serverBaseUrl))
  then mret false
  else mret (startsWith "/api/v4/" (pathname requestUrl)).

(** Lines 20-38. *)
Definition shouldAttachServerAuthHeaders (uri : option string) (serverUrl : string)
  : completion bool :=
  match uri with
  | None => mret false
  | Some u =>
      if negb (truthy_string u) then mret false
      else try_catch (shouldAttachServerAuthHeaders_try u serverUrl) (mret false)
  end.
End OriginMatcher.

(** ** Cache coordinates *)

(** The alphabet of the URL-safe base-64 variant: the two characters of
    standard base 64 that are not safe in a path or URL (plus and slash)
    are replaced by minus and underscore. *)
Definition base64url_alphabet : string :=
  "ABCDEFGHIJKLMNOPQRSTUVWXYZabcdefghijklmnopqrstuvwxyz0123456789-_".

Definition base64url_pad : ascii := "="%char.

(** The character of a six-bit group. *)
Definition sextet_char (n : N) : ascii :=
  match String.get (N.to_nat n) base64url_alphabet with
  | Some c => c
  | None => base64url_pad
  end.

(** Modelled from the spec: [urlSafeBase64Encode] of [@utils/security] is
    not among the sources.  The design document asks for a deterministic,
    URL-safe encoding of the identity string without path separators and
    names the standard reversible URL-safe base-64 encoding as acceptable;
    this is that encoding: three bytes become four six-bit groups, a final
    group of one or two bytes is padded. *)
Fixpoint urlSafeBase64Encode (s : string) : string :=
  match s with
  | EmptyString => EmptyString
  | String a EmptyString =>
      let x := N_of_ascii a in
      String (sextet_char (x / 4))
        (String (sextet_char ((x mod 4) * 16))
           (String base64url_pad (String base64url_pad EmptyString)))
  | String a (String b EmptyString) =>
      let x := N_of_ascii a in
      let y := N_of_ascii b in
      String (sextet_char (x / 4))
        (String (sextet_char ((x mod 4) * 16 + y / 16))
           (String (sextet_char ((y mod 16) * 4))
              (String base64url_pad EmptyString)))
  | String a (String b (String c rest)) =>
      let x := N_of_ascii a in
      let y := N_of_ascii b in
      let z := N_of_ascii c in
      String (sextet_char (x / 4))
        (String (sextet_char ((x mod 4) * 16 + y / 16))
           (String (sextet_char ((y mod 16) * 4 + z / 64))
              (String (sextet_char (z mod 64)) (urlSafeBase64Encode rest))))
  end.

(** Line 56 and line 119: [const cachePath = urlSafeBase64Encode(serverUrl)]. *)
Definition cachePathFor (serverUrl : string) : string := urlSafeBase64Encode serverUrl.

(** Line 70 and line 129: [cacheKey: id]. *)
Definition primaryCacheKey (id : string) : string := id.

(** Line 95 and line 147: the template literal that appends [-thumb]. *)
Definition placeholderCacheKey (id : string) : string := id +:+ "-thumb".

(** A path separator of a file system. *)
Definition is_path_separator (c : ascii) : bool :=
  Ascii.eqb c "/"%char || Ascii.eqb c "\"%char.

(** ** Header objects, descriptors and props *)

(** A header object is a mapping from header names to values; descriptors
    refer to header objects by their address in the store. *)
Abbreviation loc := positive (only parsing).
Abbreviation header_map := (gmap string string) (only parsing).
Abbreviation heap := (gmap positive (gmap string string)) (only parsing).

(** [ImageSource] of expo-image, restricted to the properties this file
    reads or writes; [others] holds the remaining properties (width, height,
    blurhash, ...), which every spread copies.  A property that is absent
    and a property whose value is [undefined] are both [None]. *)
Record ImageSource : Type := mkImageSource {
  uri : option string;
  headers : option loc;
  cacheKey : option string;
  cachePath : option string;
  others : gmap string string
}.

(** The [source] prop: a bundled asset handle (a number), a descriptor
    object, or [null] / [undefined]. *)
Inductive SourceValue : Type :=
| SrcNumber (n : Z)
| SrcObject (s : ImageSource)
| SrcNullish.

(** The [placeholder] prop: as [source], or a string (a hash or a URI). *)
Inductive PlaceholderValue : Type :=
| PhNullish
| PhNumber (n : Z)
| PhString (s : string)
| PhObject (s : ImageSource).

(** [cachePolicy] of expo-image. *)
Inductive CachePolicy : Type :=
| CacheNone
| CacheDisk
| CacheMemory
| CacheMemoryDisk.

(** The props both components destructure: [{id, ...props}]. *)
Record ExpoImageProps : Type := mkProps {
  props_id : option string;
  props_source : SourceValue;
  props_placeholder : PlaceholderValue;
  props_cachePolicy : option CachePolicy
}.

(** Lines 12-14 and 16-18: [id] is required unless [cachePolicy] is
    ['memory'], in which case it is optional. *)
Definition well_typed_props (p : ExpoImageProps) : Prop :=
  is_Some (props_id p) ∨ props_cachePolicy p = Some CacheMemory.

Definition empty_ImageSource : ImageSource :=
  {| uri := None; headers := None; cacheKey := None; cachePath := None; others := ∅ |}.

(** What [props.source?.f] and [{...props.source}] read: the fields of the
    object, nothing for [null] / [undefined]. *)
Definition source_fields (v : SourceValue) : ImageSource :=
  match v with
  | SrcObject s => s
  | SrcNumber _ | SrcNullish => empty_ImageSource
  end.

(** ** Computations over the store *)

Definition M (A : Type) : Type :=
  gmap positive (gmap string string) → completion (A * gmap positive (gmap string string)).

#[global] Instance M_mret : MRet M := fun A a h => Normal (a, h).
#[global] Instance M_mbind : MBind M := fun A B k m h =>
  match m h with
  | Normal (a, h') => k a h'
  | Throw => Throw
  end.

Definition lift {A} (c : completion A) : M A := fun h =>
  match c with
  | Normal a => Normal (a, h)
  | Throw => Throw
  end.

(** The properties of the object behind a reference; spreading [undefined]
    contributes nothing, and a reference that the store does not hold reads
    as an object without properties. *)
Definition read_headers (h : heap) (r : option loc) : header_map :=
  match r with
  | Some l => default ∅ (h !! l)
  | None => ∅
  end.

(** [{...a, ...b}]: a new object with the properties of [a] overlaid by
    those of [b]. *)
Definition spread_headers (a b : option loc) : M (option loc) := fun h =>
  let l := fresh (dom h) in
  Normal (Some l, <[l := read_headers h b ∪ read_headers h a]> h).

(** The store after [delete r?.k]: the property is removed from the object
    itself, so every holder of the reference sees it gone; nothing happens
    when [r] is [undefined]. *)
Definition heap_delete (r : option loc) (k : string) (h : heap) : heap :=
  match r with
  | Some l => alter (delete k) l h
  | None => h
  end.

(** [delete r?.k] *)
Definition delete_property (r : option loc) (k : string) : M unit := fun h =>
  Normal (tt, heap_delete r k h).

Section SourceResolver.
Context `{URLParser}.

(** Lines 57-79: the [source] passed on by [ExpoImage]. *)
Definition ExpoImage_source (p : ExpoImageProps) (serverUrl : string)
    (requestHeaders : option loc) : M SourceValue :=
  match props_source p with
  | SrcNumber n => mret (SrcNumber n)
  | src =>
      let s := source_fields src in
      attach ← lift (shouldAttachServerAuthHeaders (uri s) serverUrl);
      sourceHeaders ←
        (if attach && truthy_ref requestHeaders
         then spread_headers requestHeaders (headers s)
         else mret (headers s));
      _ ← delete_property sourceHeaders "Accept";
      match truthy_id (props_id p) with
      | Some id =>
          mret (SrcObject {| uri := uri s; headers := sourceHeaders;
                             cacheKey := Some (primaryCacheKey id);
                             cachePath := Some (cachePathFor serverUrl);
                             others := others s |})
      | None =>
          mret (SrcObject {| uri := uri s; headers := sourceHeaders;
                             cacheKey := cacheKey s; cachePath := cachePath s;
                             others := others s |})
      end
  end.

(** Lines 82-104: the [placeholder] passed on by [ExpoImage]. *)
Definition ExpoImage_placeholder (p : ExpoImageProps) (serverUrl : string)
    (requestHeaders : option loc) : M PlaceholderValue :=
  match props_placeholder p with
  | PhObject s =>
      attach ← lift (shouldAttachServerAuthHeaders (uri s) serverUrl);
      placeholderHeaders ←
        (if attach && truthy_ref requestHeaders
         then spread_headers requestHeaders (headers s)
         else mret (headers s));
      _ ← delete_property placeholderHeaders "Accept";
      match truthy_opt_string (uri s), truthy_id (props_id p) with
      | true, Some id =>
          mret (PhObject {| uri := uri s; headers := placeholderHeaders;
                            cacheKey := Some (placeholderCacheKey id);
                            cachePath := Some (cachePathFor serverUrl);
                            others := others s |})
      | _, _ =>
          mret (PhObject {| uri := uri s; headers := placeholderHeaders;
                            cacheKey := cacheKey s; cachePath := cachePath s;
                            others := others s |})
      end
  | ph => mret ph
  end.

(** Lines 40-114: both memos of one render, in the order of the code.
    [requestHeaders] is the value of lines 42-49: the header object of the
    server's client, or [undefined] when looking the client up throws. *)
Definition ExpoImage (p : ExpoImageProps) (serverUrl : string)
    (requestHeaders : option loc) : M (SourceValue * PlaceholderValue) :=
  source ← ExpoImage_source p serverUrl requestHeaders;
  placeholder ← ExpoImage_placeholder p serverUrl requestHeaders;
  mret (source, placeholder).
End SourceResolver.

(** Lines 120-135: the [source] passed on by [ExpoImageBackground]; no
    header object is read or written. *)
Definition ExpoImageBackground_source (p : ExpoImageProps) (serverUrl : string)
    : SourceValue :=
  match props_source p with
  | SrcNumber n => SrcNumber n
  | src =>
      match truthy_id (props_id p) with
      | Some id =>
          let s := source_fields src in
          SrcObject {| uri := uri s; headers := headers s;
                       cacheKey := Some (primaryCacheKey id);
                       cachePath := Some (cachePathFor serverUrl);
                       others := others s |}
      | None => src
      end
  end.

(** Lines 138-153: the [placeholder] passed on by [ExpoImageBackground]. *)
Definition ExpoImageBackground_placeholder (p : ExpoImageProps) (serverUrl : string)
    : PlaceholderValue :=
  match props_placeholder p with
  | PhObject s =>
      match truthy_opt_string (uri s), truthy_id (props_id p) with
      | true, Some id =>
          PhObject {| uri := uri s; headers := headers s;
                      cacheKey := Some (placeholderCacheKey id);
                      cachePath := Some (cachePathFor serverUrl);
                      others := others s |}
      | _, _ => PhObject s
      end
  | ph => ph
  end.

(** Lines 117-164. *)
Definition ExpoImageBackground (p : ExpoImageProps) (serverUrl : string)
    : SourceValue * PlaceholderValue :=
  (ExpoImageBackground_source p serverUrl, ExpoImageBackground_placeholder p serverUrl).

(** ** A runnable instance of the URL interface

    A small parser for absolute [http] and [https] URLs of the shape
    [scheme://authority/path], enough to run the resolver on the examples of
    the design document.  The origin is the scheme with the authority, the
    pathname is the rest (a lone slash when there is none). *)

Definition simple_new_URL (s : string) : completion URL :=
  match String.index 0 "://" s with
  | Some n =>
      let scheme := String.substring 0 n s in
      let rest := String.substring (n + 3) (String.length s - (n + 3)) s in
      if (String.eqb scheme "http" || String.eqb scheme "https") && truthy_string rest then
        match String.index 0 "/" rest with
        | Some m =>
            Normal {| origin := scheme +:+ "://" +:+ String.substring 0 m rest;
                      pathname := String.substring m (String.length rest - m) rest |}
        | None =>
            Normal {| origin := scheme +:+ "://" +:+ rest; pathname := "/" |}
        end
      else Throw
  | None => Throw
  end.

#[global] Instance simple_URLParser : URLParser :=
  {| new_URL := simple_new_URL; new_URL_empty := eq_refl |}.

(** [s.endsWith(suffix)] *)
Definition endsWith (suffix s : string) : bool :=
  Nat.leb (String.length suffix) (String.length s)
  && String.eqb (String.substring (String.length s - String.length suffix)
                   (String.length suffix) s) suffix.

(** The header reference a resolved value carries, if it is a descriptor. *)
Definition source_headers (v : SourceValue) : option loc :=
  match v with
  | SrcObject s => headers s
  | SrcNumber _ | SrcNullish => None
  end.

Definition placeholder_headers (v : PlaceholderValue) : option loc :=
  match v with
  | PhObject s => headers s
  | PhNullish | PhNumber _ | PhString _ => None
  end.

(** The cache coordinates ([cacheKey], [cachePath]) a value carries. *)
Definition source_cache (v : SourceValue) : option string * option string :=
  match v with
  | SrcObject s => (cacheKey s, cachePath s)
  | SrcNumber _ | SrcNullish => (None, None)
  end.

Definition placeholder_cache (v : PlaceholderValue) : option string * option string :=
  match v with
  | PhObject s => (cacheKey s, cachePath s)
  | PhNullish | PhNumber _ | PhString _ => (None, None)
  end.

(** The header reference and the store that line 62 (or line 87) leaves
    behind, as a function of the outcome of the origin test: a new object
    when headers are attached, the caller's own object otherwise. *)
Definition merged_headers (attach : bool) (requestHeaders callerHeaders : option loc)
    (h : heap) : option loc * heap :=
  if attach && truthy_ref requestHeaders
  then (Some (fresh (dom h)),
        <[fresh (dom h) := read_headers h callerHeaders ∪ read_headers h requestHeaders]> h)
  else (callerHeaders, h).

(** Two descriptors that differ at most in their cache coordinates. *)
Definition same_up_to_cache (a b : ImageSource) : Prop :=
  uri b = uri a ∧ headers b = headers a ∧ others b = others a.

(** ** Concrete inputs *)

(** A store with one header object of a caller, which carries an [Accept]
    entry. *)
Definition caller_store : gmap positive (gmap string string) :=
  {[ 1%positive := {[ "Accept" := "image/png"; "X-Trace" := "t1" ]} ]}.

(** An image of another origin than the server, with the caller's headers. *)
Definition cdn_image : ImageSource :=
  {| uri := Some "https://cdn.example.com/logo.png"; headers := Some 1%positive;
     cacheKey := None; cachePath := None; others := ∅ |}.

Definition cdn_props : ExpoImageProps :=
  {| props_id := Some "logo"; props_source := SrcObject cdn_image;
     props_placeholder := PhObject cdn_image; props_cachePolicy := None |}.

(** Props of the memory-only shape (line 13) that also carry an [id]. *)
Definition api_image : ImageSource :=
  {| uri := Some "https://chat.example.com/api/v4/files/1"; headers := None;
     cacheKey := None; cachePath := None; others := ∅ |}.

Definition memory_props_with_id : ExpoImageProps :=
  {| props_id := Some "img-1"; props_source := SrcObject api_image;
     props_placeholder := PhObject api_image; props_cachePolicy := Some CacheMemory |}.

(** Props of the memory-only shape without an [id]. *)
Definition memory_props_without_id : ExpoImageProps :=
  {| props_id := None; props_source := SrcObject api_image;
     props_placeholder := PhObject api_image; props_cachePolicy := Some CacheMemory |}.

(** Props with an object placeholder under a given [id]. *)
Definition props_with_id (id : string) : ExpoImageProps :=
  {| props_id := Some id; props_source := SrcObject api_image;
     props_placeholder := PhObject api_image; props_cachePolicy := None |}.

(** ** The rest of the component *)

(** A reference that is [undefined] or that the store holds: references
    to objects that exist. *)
Definition allocated (h : heap) (r : option loc) : Prop :=
  match r with
  | Some l => is_Some (h !! l)
  | None => True
  end.

(** The entry under [k] of [{...requestHeaders, ...callerHeaders}] when
    headers are attached, of the caller's headers otherwise. *)
Definition merged_entry (attach : bool) (requestHeaders callerHeaders : option loc)
    (h : heap) (k : string) : option string :=
  if attach && truthy_ref requestHeaders then
    match read_headers h callerHeaders !! k with
    | Some v => Some v
    | None => read_headers h requestHeaders !! k
    end
  else read_headers h callerHeaders !! k.

(** What [props.placeholder.f] reads when the placeholder is a descriptor. *)
Definition placeholder_fields (v : PlaceholderValue) : ImageSource :=
  match v with
  | PhObject s => s
  | PhNullish | PhNumber _ | PhString _ => empty_ImageSource
  end.

(** Lines 42-49: the [requestHeaders] memo.  The network manager is not
    part of this file; [getRequestHeaders serverUrl] stands for
    [NetworkManager.getClient(serverUrl).getRequestHeaders('GET')], which
    yields the client's header object or throws when no client is
    registered for the server. *)
Definition requestHeaders_memo (getRequestHeaders : string → completion positive)
    (serverUrl : string) : completion (option positive) :=
  try_catch (l ← getRequestHeaders serverUrl; mret (Some l)) (mret None).

(** The reference and the store after lines 62-63 (or 87-88). *)
Definition headers_step_ref (attach : bool) (requestHeaders callerHeaders : option loc)
    (h : heap) : option loc :=
  (merged_headers attach requestHeaders callerHeaders h).1.

Definition headers_step_store (attach : bool) (requestHeaders callerHeaders : option loc)
    (h : heap) : heap :=
  heap_delete (merged_headers attach requestHeaders callerHeaders h).1 "Accept"
    (merged_headers attach requestHeaders callerHeaders h).2.

Section Render.
Context `{URLParser}.

(** Lines 40-114 with the memo of lines 42-49 in front. *)
Definition ExpoImage_render (getRequestHeaders : string → completion positive)
    (p : ExpoImageProps) (serverUrl : string) : M (SourceValue * PlaceholderValue) :=
  requestHeaders ← lift (requestHeaders_memo getRequestHeaders serverUrl);
  ExpoImage p serverUrl requestHeaders.
End Render.

(** A store with the header object of the server's client (at 2) beside
    the caller's (at 1). *)
Definition client_store : gmap positive (gmap string string) :=
  {[ 1%positive := {[ "Accept" := "image/png"; "X-Trace" := "t1" ]};
     2%positive := {[ "Authorization" := "Bearer T"; "Accept" := "*/*";
                      "X-Trace" := "server" ]} ]}.

(** An image of the server's API with the caller's headers. *)
Definition api_image_with_headers : ImageSource :=
  {| uri := Some "https://chat.example.com/api/v4/files/1"; headers := Some 1%positive;
     cacheKey := None; cachePath := None; others := ∅ |}.

(** The API image as source, the image of the other origin as placeholder. *)
Definition mixed_props : ExpoImageProps :=
  {| props_id := Some "img-1"; props_source := SrcObject api_image_with_headers;
     props_placeholder := PhObject cdn_image; props_cachePolicy := None |}.

(** A placeholder descriptor without a [uri]. *)
Definition blurhash_image : ImageSource :=
  {| uri := None; headers := None; cacheKey := None; cachePath := None;
     others := {[ "blurhash" := "LEHV6nWB2yk8" ]} |}.

Definition blurhash_props : ExpoImageProps :=
  {| props_id := Some "img-1"; props_source := SrcObject api_image;
     props_placeholder := PhObject blurhash_image; props_cachePolicy := None |}.

(** A registry without any client. *)
Definition no_client (serverUrl : string) : completion positive := Throw.

(** * Properties *)

(** ** Running the model on the examples of the design document *)

Example encode_server_url :
  urlSafeBase64Encode "https://chat.example.com" = "aHR0cHM6Ly9jaGF0LmV4YW1wbGUuY29t".
Proof. reflexivity. Qed.

Example encode_minus : urlSafeBase64Encode "a?>" = "YT8-".
Proof. reflexivity. Qed.

Example encode_underscore : urlSafeBase64Encode "???" = "Pz8_".
Proof. reflexivity. Qed.

Example encode_padding : urlSafeBase64Encode "ab" = "YWI=".
Proof. reflexivity. Qed.

Example P2_origin_isolation :
  shouldAttachServerAuthHeaders (Some "https://b.example.com/api/v4/files/1")
    "https://a.example.com" = Normal false.
Proof. reflexivity. Qed.

Example P3_api_path :
  shouldAttachServerAuthHeaders (Some "https://a.example.com/api/v4/files/1")
    "https://a.example.com" = Normal true.
Proof. reflexivity. Qed.

Example P3_static_path :
  shouldAttachServerAuthHeaders (Some "https://a.example.com/static/logo.png")
    "https://a.example.com" = Normal false.
Proof. reflexivity. Qed.

(** The end-to-end scenario: the client's headers are attached without
    their [Accept] entry, and the cache coordinates are those of the id and
    of the server. *)
Example end_to_end :
  let client : gmap string string :=
    {[ "Authorization" := "Bearer T"; "Accept" := "*/*" ]} in
  let h : gmap positive (gmap string string) := {[ 1%positive := client ]} in
  let p := {| props_id := Some "file-42";
              props_source := SrcObject {| uri := Some "https://chat.example.com/api/v4/files/42";
                                           headers := None; cacheKey := None;
                                           cachePath := None; others := ∅ |};
              props_placeholder := PhNullish;
              props_cachePolicy := None |} in
  ∃ l h',
    ExpoImage_source p "https://chat.example.com" (Some 1%positive) h
    = Normal (SrcObject {| uri := Some "https://chat.example.com/api/v4/files/42";
                           headers := Some l;
                           cacheKey := Some "file-42";
                           cachePath := Some "aHR0cHM6Ly9jaGF0LmV4YW1wbGUuY29t";
                           others := ∅ |}, h')
    ∧ h' !! l = Some {[ "Authorization" := "Bearer T" ]}
    ∧ h' !! 1%positive = Some client.
Proof.
  eexists _, _. split; [vm_compute; reflexivity|]. split; vm_compute; reflexivity.
Qed.

(** ** OriginMatcher *)

Section OriginMatcherFacts.
Context `{URLParser}.

Lemma truthy_of_parsed (uri : string) (u : URL) :
  new_URL uri = Normal u → truthy_string uri = true.
Proof.
  destruct uri as [|c rest]; [|reflexivity].
  rewrite new_URL_empty. discriminate.
Qed.

(** On two strings that parse, the predicate is the conjunction of the
    two tests of lines 29 and 33. *)
Lemma shouldAttach_parsed (uri serverUrl : string) (u s : URL) :
  new_URL uri = Normal u →
  new_URL serverUrl = Normal s →
  shouldAttachServerAuthHeaders (Some uri) serverUrl
  = Normal (String.eqb (origin u) (origin s) && startsWith "/api/v4/" (pathname u)).
Proof.
  intros Hu Hs. unfold shouldAttachServerAuthHeaders.
  rewrite (truthy_of_parsed _ _ Hu). cbn [negb].
  unfold shouldAttachServerAuthHeaders_try, mbind, completion_mbind.
  rewrite Hu. cbn [completion_bind]. rewrite Hs. cbn [completion_bind].
  destruct (String.eqb (origin u) (origin s)); reflexivity.
Qed.

(** The [catch] of line 34 turns every exception of the body into [false]. *)
Lemma shouldAttach_total (uri : option string) (serverUrl : string) :
  ∃ b, shouldAttachServerAuthHeaders uri serverUrl = Normal b.
Proof.
  unfold shouldAttachServerAuthHeaders.
  destruct uri as [u|]; [|by eexists].
  destruct (truthy_string u); cbn [negb]; [|by eexists].
  destruct (shouldAttachServerAuthHeaders_try u serverUrl); by eexists.
Qed.

Lemma shouldAttach_try_throws (u serverUrl : string) :
  new_URL u = Throw ∨ new_URL serverUrl = Throw →
  shouldAttachServerAuthHeaders_try u serverUrl = Throw.
Proof.
  unfold shouldAttachServerAuthHeaders_try, mbind, completion_mbind.
  intros [Hu | Hs].
  - by rewrite Hu.
  - destruct (new_URL u); [|done]. cbn [completion_bind]. by rewrite Hs.
Qed.
End OriginMatcherFacts.

(** C1.  When the request URI and the server identity both parse, the
    predicate answers [true] exactly when the two origins are the same
    string and the request's path starts with [/api/v4/]; it always answers,
    and the answer is [false] as soon as the origins differ. *)
Theorem shouldAttach_iff_same_origin_and_api_path `{URLParser}
    (uri serverUrl : string) (u s : URL) :
  new_URL uri = Normal u →
  new_URL serverUrl = Normal s →
  (shouldAttachServerAuthHeaders (Some uri) serverUrl = Normal true
   ↔ origin u = origin s ∧ startsWith "/api/v4/" (pathname u) = true)
  ∧ (shouldAttachServerAuthHeaders (Some uri) serverUrl = Normal false
     ↔ ¬ (origin u = origin s ∧ startsWith "/api/v4/" (pathname u) = true))
  ∧ (origin u ≠ origin s →
     shouldAttachServerAuthHeaders (Some uri) serverUrl = Normal false).
Proof.
  intros Hu Hs. rewrite (shouldAttach_parsed _ _ _ _ Hu Hs).
  destruct (String.eqb_spec (origin u) (origin s)) as [Ho | Ho];
    destruct (startsWith "/api/v4/" (pathname u)); cbn [andb].
  - split; [tauto|]. split; [|tauto]. split; [discriminate|tauto].
  - split; [split; [discriminate|intros [_ ?]; discriminate]|].
    split; [|done]. split; [intros _ [_ ?]; discriminate|done].
  - split; [split; [discriminate|tauto]|]. split; [|done]. split; [tauto|done].
  - split; [split; [discriminate|tauto]|]. split; [|done]. split; [tauto|done].
Qed.

Lemma shouldAttach_iff_same_origin_and_api_path_witness :
  shouldAttachServerAuthHeaders (Some "https://a.example.com/api/v4/files/1")
    "https://a.example.com" = Normal true
  ↔ "https://a.example.com" = "https://a.example.com"
    ∧ startsWith "/api/v4/" "/api/v4/files/1" = true.
Proof.
  exact (proj1 (shouldAttach_iff_same_origin_and_api_path
                  "https://a.example.com/api/v4/files/1" "https://a.example.com"
                  {| origin := "https://a.example.com"; pathname := "/api/v4/files/1" |}
                  {| origin := "https://a.example.com"; pathname := "/" |}
                  eq_refl eq_refl)).
Defined.

(** C3.  The predicate never throws, and it answers [false] when the URI is
    undefined or when the URI or the server identity does not parse. *)
Theorem shouldAttach_fail_closed `{URLParser} (uri : option string) (serverUrl : string) :
  (∃ b, shouldAttachServerAuthHeaders uri serverUrl = Normal b)
  ∧ (uri = None
     ∨ (∃ u, uri = Some u ∧ new_URL u = Throw)
     ∨ new_URL serverUrl = Throw →
     shouldAttachServerAuthHeaders uri serverUrl = Normal false).
Proof.
  split; [apply shouldAttach_total|].
  intros Hc. unfold shouldAttachServerAuthHeaders.
  destruct uri as [u|]; [|reflexivity].
  destruct (truthy_string u); cbn [negb]; [|reflexivity].
  rewrite shouldAttach_try_throws; [reflexivity|].
  destruct Hc as [Hc | [(u' & Hu' & Ht) | Hc]]; [discriminate| |by right].
  left. congruence.
Qed.

Lemma shouldAttach_fail_closed_witness :
  shouldAttachServerAuthHeaders (Some "not a url") "https://a.example.com" = Normal false
  ∧ shouldAttachServerAuthHeaders (Some "https://a.example.com/api/v4/x") "a.example.com"
    = Normal false
  ∧ shouldAttachServerAuthHeaders None "https://a.example.com" = Normal false.
Proof.
  split; [|split].
  - apply (proj2 (shouldAttach_fail_closed (Some "not a url") "https://a.example.com")).
    right; left. exists "not a url". split; reflexivity.
  - apply (proj2 (shouldAttach_fail_closed (Some "https://a.example.com/api/v4/x")
                    "a.example.com")).
    right; right. reflexivity.
  - apply (proj2 (shouldAttach_fail_closed None "https://a.example.com")).
    left. reflexivity.
Defined.

(** ** Running the two memos of [ExpoImage] *)

Section ResolverFacts.
Context `{URLParser}.

Lemma ExpoImage_source_number p serverUrl requestHeaders (h : heap) n :
  props_source p = SrcNumber n →
  ExpoImage_source p serverUrl requestHeaders h = Normal (SrcNumber n, h).
Proof. intros Hn. unfold ExpoImage_source. by rewrite Hn. Qed.

Lemma ExpoImage_source_run p serverUrl requestHeaders (h : heap) :
  (∀ n, props_source p ≠ SrcNumber n) →
  let s := source_fields (props_source p) in
  ∃ attach,
    shouldAttachServerAuthHeaders (uri s) serverUrl = Normal attach
    ∧ let m := merged_headers attach requestHeaders (headers s) h in
      ExpoImage_source p serverUrl requestHeaders h
      = Normal (SrcObject
                  {| uri := uri s; headers := m.1;
                     cacheKey := match truthy_id (props_id p) with
                                 | Some id => Some (primaryCacheKey id)
                                 | None => cacheKey s
                                 end;
                     cachePath := match truthy_id (props_id p) with
                                  | Some id => Some (cachePathFor serverUrl)
                                  | None => cachePath s
                                  end;
                     others := others s |},
                heap_delete m.1 "Accept" m.2).
Proof.
  intros Hn s.
  destruct (shouldAttach_total (uri s) serverUrl) as [attach Ha].
  exists attach. split; [exact Ha|]. subst s.
  unfold ExpoImage_source, merged_headers.
  destruct (props_source p) as [n | s | ]; [by destruct (Hn n) | |].
  all: unfold mbind, M_mbind, lift; rewrite Ha.
  all: destruct (attach && truthy_ref requestHeaders);
    cbn -[fresh]; destruct (truthy_id (props_id p)); reflexivity.
Qed.

Lemma ExpoImage_placeholder_passthrough p serverUrl requestHeaders (h : heap) :
  (∀ s, props_placeholder p ≠ PhObject s) →
  ExpoImage_placeholder p serverUrl requestHeaders h = Normal (props_placeholder p, h).
Proof.
  intros Hn. unfold ExpoImage_placeholder.
  destruct (props_placeholder p) as [ | | | s]; try reflexivity.
  by destruct (Hn s).
Qed.

Lemma ExpoImage_placeholder_run p serverUrl requestHeaders (h : heap) s :
  props_placeholder p = PhObject s →
  ∃ attach,
    shouldAttachServerAuthHeaders (uri s) serverUrl = Normal attach
    ∧ let m := merged_headers attach requestHeaders (headers s) h in
      let keyed := if truthy_opt_string (uri s) then truthy_id (props_id p) else None in
      ExpoImage_placeholder p serverUrl requestHeaders h
      = Normal (PhObject
                  {| uri := uri s; headers := m.1;
                     cacheKey := match keyed with
                                 | Some id => Some (placeholderCacheKey id)
                                 | None => cacheKey s
                                 end;
                     cachePath := match keyed with
                                  | Some id => Some (cachePathFor serverUrl)
                                  | None => cachePath s
                                  end;
                     others := others s |},
                heap_delete m.1 "Accept" m.2).
Proof.
  intros Hs.
  destruct (shouldAttach_total (uri s) serverUrl) as [attach Ha].
  exists attach. split; [exact Ha|].
  unfold ExpoImage_placeholder, merged_headers. rewrite Hs.
  unfold mbind, M_mbind, lift; rewrite Ha.
  destruct (attach && truthy_ref requestHeaders);
    cbn -[fresh]; destruct (truthy_opt_string (uri s)), (truthy_id (props_id p));
    reflexivity.
Qed.
End ResolverFacts.

(** ** The store after [delete] *)

Lemma read_headers_heap_delete_same (r : option loc) (k : string) (h : heap) :
  read_headers (heap_delete r k h) r = delete k (read_headers h r).
Proof.
  destruct r as [l|]; cbn; [|by rewrite delete_empty].
  rewrite lookup_alter_eq. destruct (h !! l); cbn; [done|by rewrite delete_empty].
Qed.

Lemma read_headers_heap_delete_other (r r' : option loc) (k : string) (h : heap) :
  r' ≠ r → read_headers (heap_delete r k h) r' = read_headers h r'.
Proof.
  destruct r as [l|], r' as [l'|]; cbn; try done.
  intros Hne. rewrite lookup_alter_ne; [done|congruence].
Qed.

(** Deleting a property never brings it back anywhere in the store. *)
Lemma heap_delete_keeps_absent (r r' : option loc) (k : string) (h : heap) :
  read_headers h r' !! k = None →
  read_headers (heap_delete r k h) r' !! k = None.
Proof.
  intros Hk. destruct (decide (r' = r)) as [-> | Hne].
  - rewrite read_headers_heap_delete_same. apply lookup_delete_eq.
  - by rewrite read_headers_heap_delete_other.
Qed.

Lemma heap_delete_lookup_ne (r r' : option loc) (k k' : string) (h : heap) :
  k' ≠ k →
  read_headers (heap_delete r k h) r' !! k' = read_headers h r' !! k'.
Proof.
  intros Hk. destruct (decide (r' = r)) as [-> | Hne].
  - rewrite read_headers_heap_delete_same. by rewrite lookup_delete_ne.
  - by rewrite read_headers_heap_delete_other.
Qed.

(** Lines 62-63 (and 87-88) together: the object they return has no
    [Accept] property, and no other object gains one. *)
Lemma merged_then_delete_result attach (requestHeaders callerHeaders : option loc) (h : heap) :
  let m := merged_headers attach requestHeaders callerHeaders h in
  read_headers (heap_delete m.1 "Accept" m.2) m.1 !! "Accept" = None.
Proof. cbn zeta. rewrite read_headers_heap_delete_same. apply lookup_delete_eq. Qed.

Lemma merged_then_delete_keeps_absent attach (requestHeaders callerHeaders r' : option loc)
    (h : heap) :
  read_headers h r' !! "Accept" = None →
  let m := merged_headers attach requestHeaders callerHeaders h in
  read_headers (heap_delete m.1 "Accept" m.2) r' !! "Accept" = None.
Proof.
  intros Hk. unfold merged_headers.
  destruct (attach && truthy_ref requestHeaders); cbn -[fresh heap_delete].
  - set (l := fresh (dom h)).
    destruct (decide (r' = Some l)) as [-> | Hne].
    + rewrite read_headers_heap_delete_same. apply lookup_delete_eq.
    + rewrite read_headers_heap_delete_other by done.
      destruct r' as [l'|]; cbn; [|done].
      rewrite lookup_insert_ne by congruence. exact Hk.
  - by apply heap_delete_keeps_absent.
Qed.

(** ** HeaderMerger *)

(** C5.  Whatever the server's headers, the caller's headers and the outcome
    of the origin test, after a render of [ExpoImage] neither the headers of
    the resolved source nor those of the resolved placeholder have an
    [Accept] entry. *)
Theorem resolved_headers_have_no_Accept `{URLParser} (p : ExpoImageProps)
    (serverUrl : string) (requestHeaders : option loc) (h : heap) :
  ∃ source placeholder h',
    ExpoImage p serverUrl requestHeaders h = Normal (source, placeholder, h')
    ∧ read_headers h' (source_headers source) !! "Accept" = None
    ∧ read_headers h' (placeholder_headers placeholder) !! "Accept" = None.
Proof.
  unfold ExpoImage, mbind, M_mbind.
  assert (∃ source h1,
    ExpoImage_source p serverUrl requestHeaders h = Normal (source, h1)
    ∧ read_headers h1 (source_headers source) !! "Accept" = None)
    as (source & h1 & -> & Hsrc).
  { destruct (props_source p) as [n | s | ] eqn:Hp.
    - eexists _, _. split; [by apply ExpoImage_source_number|done].
    - destruct (ExpoImage_source_run p serverUrl requestHeaders h) as (a & _ & Hr);
        [rewrite Hp; done|].
      eexists _, _. split; [exact Hr|]. apply merged_then_delete_result.
    - destruct (ExpoImage_source_run p serverUrl requestHeaders h) as (a & _ & Hr);
        [rewrite Hp; done|].
      eexists _, _. split; [exact Hr|]. apply merged_then_delete_result. }
  destruct (props_placeholder p) as [ | n | t | s] eqn:Hp.
  4: { destruct (ExpoImage_placeholder_run p serverUrl requestHeaders h1 s Hp)
         as (a & _ & Hr).
       rewrite Hr. eexists _, _, _. split; [reflexivity|]. split.
       - by apply merged_then_delete_keeps_absent.
       - apply merged_then_delete_result. }
  all: rewrite ExpoImage_placeholder_passthrough by (rewrite Hp; done).
  all: eexists _, _, _; split; [reflexivity|]; rewrite Hp; split; [exact Hsrc|done].
Qed.

(** C6, as stated, fails: the image is on another origin than the server and
    no server headers are available, yet the headers of the resolved source
    differ from the headers the caller supplied, whose [Accept] entry is
    gone. *)
Lemma caller_headers_unchanged_counterexample :
  shouldAttachServerAuthHeaders (uri cdn_image) "https://chat.example.com" = Normal false
  ∧ ∃ s' h',
      ExpoImage_source cdn_props "https://chat.example.com" None caller_store
      = Normal (SrcObject s', h')
      ∧ read_headers caller_store (headers cdn_image) !! "Accept" = Some "image/png"
      ∧ read_headers h' (headers s') !! "Accept" = None
      ∧ read_headers h' (headers s') ≠ read_headers caller_store (headers cdn_image).
Proof.
  split; [reflexivity|].
  eexists _, _. split; [vm_compute; reflexivity|].
  split; [reflexivity|]. split; [reflexivity|].
  intros E. apply (f_equal (λ m : gmap string string, m !! "Accept")) in E.
  vm_compute in E. discriminate E.
Qed.

(** C6, amended.  When the origin test fails or the server's headers are
    unavailable, the resolved descriptor refers to the caller's own header
    object (no new object is made, and there is none when the caller gave
    none); that object loses its [Accept] entry and keeps every other entry
    as it was. *)
Theorem caller_headers_kept_up_to_Accept `{URLParser} (p : ExpoImageProps)
    (serverUrl : string) (requestHeaders : option loc) (h : heap) (s : ImageSource) :
  shouldAttachServerAuthHeaders (uri s) serverUrl = Normal false ∨ requestHeaders = None →
  let h' := heap_delete (headers s) "Accept" h in
  ((∀ n, props_source p ≠ SrcNumber n) → source_fields (props_source p) = s →
     ∃ s', ExpoImage_source p serverUrl requestHeaders h = Normal (SrcObject s', h')
           ∧ headers s' = headers s)
  ∧ (props_placeholder p = PhObject s →
     ∃ s', ExpoImage_placeholder p serverUrl requestHeaders h = Normal (PhObject s', h')
           ∧ headers s' = headers s)
  ∧ read_headers h' (headers s) = delete "Accept" (read_headers h (headers s))
  ∧ (∀ k, k ≠ "Accept" →
       read_headers h' (headers s) !! k = read_headers h (headers s) !! k)
  ∧ (headers s = None → h' = h).
Proof.
  intros Hc h'.
  assert (∀ attach, shouldAttachServerAuthHeaders (uri s) serverUrl = Normal attach →
                    merged_headers attach requestHeaders (headers s) h = (headers s, h))
    as Hm.
  { intros attach Ha. unfold merged_headers.
    destruct Hc as [Hc | ->]; [|by rewrite andb_false_r].
    rewrite Hc in Ha. by injection Ha as <-. }
  split; [|split; [|split; [|split]]].
  - intros Hn Hp.
    destruct (ExpoImage_source_run p serverUrl requestHeaders h Hn) as (a & Ha & Hr).
    rewrite Hp in Ha, Hr.
    rewrite (Hm a Ha) in Hr. eexists. split; [exact Hr|reflexivity].
  - intros Hp.
    destruct (ExpoImage_placeholder_run p serverUrl requestHeaders h s Hp)
      as (a & Ha & Hr).
    rewrite (Hm a Ha) in Hr. eexists. split; [exact Hr|reflexivity].
  - apply read_headers_heap_delete_same.
  - intros k Hk. by apply heap_delete_lookup_ne.
  - intros Hn. subst h'. by rewrite Hn.
Qed.

Lemma caller_headers_kept_up_to_Accept_witness :
  ∃ s', ExpoImage_source cdn_props "https://chat.example.com" None caller_store
        = Normal (SrcObject s', heap_delete (Some 1%positive) "Accept" caller_store)
        ∧ headers s' = Some 1%positive.
Proof.
  apply (caller_headers_kept_up_to_Accept cdn_props "https://chat.example.com" None
           caller_store cdn_image).
  - left. reflexivity.
  - discriminate.
  - reflexivity.
Defined.

(** ** SourceResolver *)

(** C9.  A source that is a bundled asset handle (a number) is returned as it
    is by both components, with no descriptor and hence no headers, cache key
    or cache path around it, and the source memo leaves the store alone,
    whatever the id, the placeholder, the cache policy, the server and its
    headers. *)
Theorem bundled_asset_passthrough `{URLParser} (id : option string) (n : Z)
    (ph : PlaceholderValue) (policy : option CachePolicy)
    (serverUrl : string) (requestHeaders : option loc) (h : heap) :
  let p := {| props_id := id; props_source := SrcNumber n;
              props_placeholder := ph; props_cachePolicy := policy |} in
  ExpoImage_source p serverUrl requestHeaders h = Normal (SrcNumber n, h)
  ∧ (∃ placeholder h',
       ExpoImage p serverUrl requestHeaders h = Normal (SrcNumber n, placeholder, h'))
  ∧ ExpoImageBackground_source p serverUrl = SrcNumber n
  ∧ (ExpoImageBackground p serverUrl).1 = SrcNumber n.
Proof.
  intros p. split; [reflexivity|]. split; [|split; reflexivity].
  unfold ExpoImage, mbind, M_mbind.
  rewrite (ExpoImage_source_number p serverUrl requestHeaders h n eq_refl).
  destruct ph as [ | m | t | s].
  4: { destruct (ExpoImage_placeholder_run p serverUrl requestHeaders h s eq_refl)
         as (a & _ & Hr).
       rewrite Hr. by eexists _, _. }
  all: by eexists _, _.
Qed.

(** C10.  [ExpoImageBackground] hands the caller's header reference on as it
    is, for the source and for the placeholder, whatever the URI and the
    server: each resolved value is the caller's value itself, or a copy of
    it in which only [cacheKey] and [cachePath] are set.  The component
    performs no operation on the store, so the header object behind the
    reference reads the same before and after. *)
Theorem background_leaves_headers_alone (p : ExpoImageProps) (serverUrl : string) :
  let source := ExpoImageBackground_source p serverUrl in
  let placeholder := ExpoImageBackground_placeholder p serverUrl in
  ExpoImageBackground p serverUrl = (source, placeholder)
  ∧ source_headers source = source_headers (props_source p)
  ∧ placeholder_headers placeholder = placeholder_headers (props_placeholder p)
  ∧ (source = props_source p
     ∨ ∃ id s', truthy_id (props_id p) = Some id
         ∧ source = SrcObject s'
         ∧ same_up_to_cache (source_fields (props_source p)) s'
         ∧ cacheKey s' = Some id ∧ cachePath s' = Some (cachePathFor serverUrl))
  ∧ (placeholder = props_placeholder p
     ∨ ∃ id s s', truthy_id (props_id p) = Some id
         ∧ props_placeholder p = PhObject s
         ∧ placeholder = PhObject s'
         ∧ same_up_to_cache s s'
         ∧ cacheKey s' = Some (id +:+ "-thumb")
         ∧ cachePath s' = Some (cachePathFor serverUrl))
  ∧ (∀ h : heap,
       read_headers h (source_headers source)
       = read_headers h (source_headers (props_source p))
       ∧ read_headers h (placeholder_headers placeholder)
         = read_headers h (placeholder_headers (props_placeholder p))).
Proof.
  cbn zeta.
  assert (source_headers (ExpoImageBackground_source p serverUrl)
          = source_headers (props_source p)) as Hs.
  { unfold ExpoImageBackground_source.
    destruct (props_source p), (truthy_id (props_id p)); reflexivity. }
  assert (placeholder_headers (ExpoImageBackground_placeholder p serverUrl)
          = placeholder_headers (props_placeholder p)) as Hp.
  { unfold ExpoImageBackground_placeholder.
    destruct (props_placeholder p) as [ | | | s]; try reflexivity.
    destruct (truthy_opt_string (uri s)), (truthy_id (props_id p)); reflexivity. }
  split; [reflexivity|]. split; [exact Hs|]. split; [exact Hp|].
  split; [|split].
  - unfold ExpoImageBackground_source.
    destruct (props_source p) as [n | s | ]; [by left | |];
      (destruct (truthy_id (props_id p)) as [id|]; [right|by left]);
      eexists _, _; (split; [reflexivity|]); (split; [reflexivity|]);
      repeat split.
  - unfold ExpoImageBackground_placeholder.
    destruct (props_placeholder p) as [ | | | s]; try by left.
    destruct (truthy_opt_string (uri s)); [|by left].
    destruct (truthy_id (props_id p)) as [id|]; [right|by left].
    eexists _, _, _. split; [reflexivity|]. split; [reflexivity|].
    split; [reflexivity|]. repeat split.
  - intros h. by rewrite Hs, Hp.
Qed.

Example background_keeps_Accept :
  read_headers caller_store
    (source_headers (ExpoImageBackground_source cdn_props "https://chat.example.com"))
  !! "Accept" = Some "image/png".
Proof. reflexivity. Qed.

(** C2, as stated, fails: with [cachePolicy] ['memory'] and an [id], both
    components put [cacheKey] and [cachePath] on the resolved source and on
    the resolved placeholder. *)
Lemma memory_only_no_cache_fields_counterexample :
  well_typed_props memory_props_with_id
  ∧ props_cachePolicy memory_props_with_id = Some CacheMemory
  ∧ (∃ source placeholder h',
       ExpoImage memory_props_with_id "https://chat.example.com" None ∅
       = Normal (source, placeholder, h')
       ∧ source_cache source = (Some "img-1", Some "aHR0cHM6Ly9jaGF0LmV4YW1wbGUuY29t")
       ∧ placeholder_cache placeholder
         = (Some "img-1-thumb", Some "aHR0cHM6Ly9jaGF0LmV4YW1wbGUuY29t"))
  ∧ source_cache (ExpoImageBackground memory_props_with_id "https://chat.example.com").1
    = (Some "img-1", Some "aHR0cHM6Ly9jaGF0LmV4YW1wbGUuY29t")
  ∧ placeholder_cache (ExpoImageBackground memory_props_with_id "https://chat.example.com").2
    = (Some "img-1-thumb", Some "aHR0cHM6Ly9jaGF0LmV4YW1wbGUuY29t").
Proof.
  split; [right; reflexivity|]. split; [reflexivity|].
  split; [|split; reflexivity].
  eexists _, _, _. split; [vm_compute; reflexivity|]. split; reflexivity.
Qed.

(** C2, amended.  The components never read [cachePolicy]; what decides is
    the [id].  With [cachePolicy] ['memory'] and no [id] (or an empty one),
    the resolved source and placeholder carry exactly the cache coordinates
    of the caller's own descriptors, so none when the caller's have none. *)
Theorem memory_only_without_id_adds_no_cache_fields `{URLParser} (p : ExpoImageProps)
    (serverUrl : string) (requestHeaders : option loc) (h : heap) :
  props_cachePolicy p = Some CacheMemory →
  truthy_id (props_id p) = None →
  (∃ source placeholder h',
     ExpoImage p serverUrl requestHeaders h = Normal (source, placeholder, h')
     ∧ source_cache source = source_cache (props_source p)
     ∧ placeholder_cache placeholder = placeholder_cache (props_placeholder p))
  ∧ source_cache (ExpoImageBackground p serverUrl).1 = source_cache (props_source p)
  ∧ placeholder_cache (ExpoImageBackground p serverUrl).2
    = placeholder_cache (props_placeholder p).
Proof.
  intros _ Hid. split; [|split].
  - unfold ExpoImage, mbind, M_mbind.
    assert (∃ source h1,
      ExpoImage_source p serverUrl requestHeaders h = Normal (source, h1)
      ∧ source_cache source = source_cache (props_source p))
      as (source & h1 & -> & Hsrc).
    { destruct (props_source p) as [n | s | ] eqn:Hp.
      - eexists _, _. split; [by apply ExpoImage_source_number|done].
      - destruct (ExpoImage_source_run p serverUrl requestHeaders h) as (a & _ & Hr);
          [rewrite Hp; done|].
        rewrite Hid, Hp in Hr. eexists _, _. split; [exact Hr|reflexivity].
      - destruct (ExpoImage_source_run p serverUrl requestHeaders h) as (a & _ & Hr);
          [rewrite Hp; done|].
        rewrite Hid, Hp in Hr. eexists _, _. split; [exact Hr|reflexivity]. }
    destruct (props_placeholder p) as [ | n | t | s] eqn:Hp.
    4: { destruct (ExpoImage_placeholder_run p serverUrl requestHeaders h1 s Hp)
           as (a & _ & Hr).
         rewrite Hid in Hr. rewrite Hr. eexists _, _, _. split; [reflexivity|].
         split; [exact Hsrc|]. by destruct (truthy_opt_string (uri s)). }
    all: rewrite ExpoImage_placeholder_passthrough by (rewrite Hp; done).
    all: eexists _, _, _; split; [reflexivity|]; rewrite Hp; split; [exact Hsrc|done].
  - cbn. unfold ExpoImageBackground_source. rewrite Hid.
    by destruct (props_source p).
  - cbn. unfold ExpoImageBackground_placeholder. rewrite Hid.
    destruct (props_placeholder p) as [ | | | s]; try reflexivity.
    by destruct (truthy_opt_string (uri s)).
Qed.

Lemma memory_only_without_id_adds_no_cache_fields_witness :
  source_cache (ExpoImageBackground memory_props_without_id "https://chat.example.com").1
  = (None, None).
Proof.
  apply (memory_only_without_id_adds_no_cache_fields memory_props_without_id
           "https://chat.example.com" None ∅); reflexivity.
Defined.

(** ** CacheKeyDeriver: cache keys *)

Lemma string_length_append (a b : string) :
  String.length (a +:+ b) = String.length a + String.length b.
Proof. induction a as [|c a IH]; simpl; [done|by f_equal]. Qed.

Lemma substring_all (b : string) : String.substring 0 (String.length b) b = b.
Proof. induction b as [|c b IH]; simpl; [done|by f_equal]. Qed.

Lemma substring_append_right (a b : string) :
  String.substring (String.length a) (String.length b) (a +:+ b) = b.
Proof. induction a as [|c a IH]; simpl; [apply substring_all|exact IH]. Qed.

Lemma endsWith_append (a b : string) : endsWith b (a +:+ b) = true.
Proof.
  unfold endsWith. rewrite string_length_append.
  replace (String.length a + String.length b - String.length b)
    with (String.length a) by lia.
  rewrite substring_append_right, String.eqb_refl, andb_true_r.
  apply Nat.leb_le. lia.
Qed.

Lemma append_suffix_neq (a b : string) : b ≠ "" → a +:+ b ≠ a.
Proof.
  intros Hb E. apply (f_equal String.length) in E.
  rewrite string_length_append in E.
  destruct b; [done|]. cbn in E. lia.
Qed.

(** C4, as stated, fails: the ids [a] and [a-thumb] are distinct, yet the
    placeholder key of the first is the primary key of the second, and the
    two resolved descriptors get the same cache key in the same cache path. *)
Lemma placeholder_key_collision_counterexample :
  "a" ≠ "a-thumb"
  ∧ placeholderCacheKey "a" = primaryCacheKey "a-thumb"
  ∧ placeholder_cache (ExpoImageBackground (props_with_id "a") "https://chat.example.com").2
    = source_cache (ExpoImageBackground (props_with_id "a-thumb") "https://chat.example.com").1
  ∧ ∃ src1 ph1 h1 src2 ph2 h2,
      ExpoImage (props_with_id "a") "https://chat.example.com" None ∅
      = Normal (src1, ph1, h1)
      ∧ ExpoImage (props_with_id "a-thumb") "https://chat.example.com" None ∅
        = Normal (src2, ph2, h2)
      ∧ placeholder_cache ph1 = source_cache src2
      ∧ (placeholder_cache ph1).1 = Some "a-thumb".
Proof.
  split; [discriminate|]. split; [reflexivity|]. split; [reflexivity|].
  eexists _, _, _, _, _, _.
  split; [vm_compute; reflexivity|]. split; [vm_compute; reflexivity|].
  split; reflexivity.
Qed.

(** C4, amended.  The placeholder key of [id1] equals the primary key of
    [id2] exactly when [id2] is [id1] followed by [-thumb]; so it differs
    from the primary key of every id that does not end in [-thumb]. *)
Theorem placeholder_key_collides_only_with_thumb_suffix (id1 id2 : string) :
  endsWith "-thumb" id2 = false →
  placeholderCacheKey id1 ≠ primaryCacheKey id2
  ∧ (∀ id, placeholderCacheKey id1 = primaryCacheKey id ↔ id = id1 +:+ "-thumb").
Proof.
  intros He. unfold placeholderCacheKey, primaryCacheKey. split.
  - intros E. rewrite <- E, endsWith_append in He. discriminate.
  - intros id. split; congruence.
Qed.

Lemma placeholder_key_collides_only_with_thumb_suffix_witness :
  placeholderCacheKey "img-1" ≠ primaryCacheKey "img-2".
Proof.
  apply (placeholder_key_collides_only_with_thumb_suffix "img-1" "img-2"). reflexivity.
Defined.

(** C8.  The placeholder key is the id followed by the fixed suffix
    [-thumb], a function of the id alone, and it is never the primary key of
    the same id: when a render keys both the source and the placeholder, the
    two resolved descriptors share the cache path and differ in the cache
    key. *)
Theorem placeholder_key_differs_from_primary `{URLParser} (p : ExpoImageProps)
    (serverUrl : string) (requestHeaders : option loc) (h : heap)
    (s : ImageSource) (id : string) :
  truthy_id (props_id p) = Some id →
  props_placeholder p = PhObject s →
  truthy_opt_string (uri s) = true →
  placeholderCacheKey id = id +:+ "-thumb"
  ∧ placeholderCacheKey id ≠ primaryCacheKey id
  ∧ (∃ source placeholder h',
       ExpoImage p serverUrl requestHeaders h = Normal (source, placeholder, h')
       ∧ placeholder_cache placeholder
         = (Some (placeholderCacheKey id), Some (cachePathFor serverUrl))
       ∧ ((∃ n, props_source p = SrcNumber n)
          ∨ source_cache source = (Some (primaryCacheKey id), Some (cachePathFor serverUrl))))
  ∧ placeholder_cache (ExpoImageBackground p serverUrl).2
    = (Some (placeholderCacheKey id), Some (cachePathFor serverUrl))
  ∧ ((∃ n, props_source p = SrcNumber n)
     ∨ source_cache (ExpoImageBackground p serverUrl).1
       = (Some (primaryCacheKey id), Some (cachePathFor serverUrl))).
Proof.
  intros Hid Hp Hu. split; [reflexivity|]. split; [by apply append_suffix_neq|].
  split; [|split].
  - unfold ExpoImage, mbind, M_mbind.
    assert (∃ source h1,
      ExpoImage_source p serverUrl requestHeaders h = Normal (source, h1)
      ∧ ((∃ n, props_source p = SrcNumber n)
         ∨ source_cache source = (Some (primaryCacheKey id), Some (cachePathFor serverUrl))))
      as (source & h1 & -> & Hsrc).
    { destruct (props_source p) as [n | s0 | ] eqn:Hs.
      - eexists _, _. split; [by apply ExpoImage_source_number|]. left. by exists n.
      - destruct (ExpoImage_source_run p serverUrl requestHeaders h) as (a & _ & Hr);
          [rewrite Hs; done|].
        rewrite Hid in Hr. eexists _, _. split; [exact Hr|]. by right.
      - destruct (ExpoImage_source_run p serverUrl requestHeaders h) as (a & _ & Hr);
          [rewrite Hs; done|].
        rewrite Hid in Hr. eexists _, _. split; [exact Hr|]. by right. }
    destruct (ExpoImage_placeholder_run p serverUrl requestHeaders h1 s Hp)
      as (a & _ & Hr).
    rewrite Hu, Hid in Hr. rewrite Hr.
    eexists _, _, _. split; [reflexivity|]. split; [reflexivity|exact Hsrc].
  - cbn. unfold ExpoImageBackground_placeholder. by rewrite Hp, Hu, Hid.
  - cbn. unfold ExpoImageBackground_source. rewrite Hid.
    destruct (props_source p) as [n | s0 | ]; [left; by exists n | by right | by right].
Qed.

Lemma placeholder_key_differs_from_primary_witness :
  placeholderCacheKey "img-1" ≠ primaryCacheKey "img-1"
  ∧ placeholder_cache (ExpoImageBackground (props_with_id "img-1") "https://chat.example.com").2
    = (Some "img-1-thumb", Some (cachePathFor "https://chat.example.com")).
Proof.
  pose proof (placeholder_key_differs_from_primary (props_with_id "img-1")
                "https://chat.example.com" None ∅ api_image "img-1"
                eq_refl eq_refl eq_refl) as (_ & Hne & _ & Hph & _).
  split; [exact Hne|exact Hph].
Defined.

(** ** CacheKeyDeriver: the cache path *)

(** A property checked on the 64 six-bit values holds of every one. *)
Lemma sextet_cases (f : N → bool) :
  forallb f (map N.of_nat (seq 0 64)) = true → ∀ n, (n < 64)%N → f n = true.
Proof.
  intros Hf n Hn. rewrite forallb_forall in Hf. apply Hf.
  rewrite <- (N2Nat.id n). apply in_map, in_seq. lia.
Qed.

Lemma sextet_char_inj (n m : N) :
  (n < 64)%N → (m < 64)%N → sextet_char n = sextet_char m → n = m.
Proof.
  intros Hn Hm E.
  pose proof (sextet_cases
    (λ n, forallb (λ m, implb (Ascii.eqb (sextet_char n) (sextet_char m)) (N.eqb n m))
            (map N.of_nat (seq 0 64))) ltac:(vm_compute; reflexivity) n Hn) as Hall.
  cbn beta in Hall.
  pose proof (sextet_cases _ Hall m Hm) as Hnm. cbn beta in Hnm.
  rewrite E, Ascii.eqb_refl in Hnm. by apply N.eqb_eq.
Qed.

Lemma sextet_char_not_pad (n : N) : (n < 64)%N → sextet_char n ≠ base64url_pad.
Proof.
  intros Hn E.
  pose proof (sextet_cases (λ n, negb (Ascii.eqb (sextet_char n) base64url_pad))
                ltac:(vm_compute; reflexivity) n Hn) as Hp.
  cbn beta in Hp. rewrite E, Ascii.eqb_refl in Hp. discriminate.
Qed.

Lemma string_get_none (s : string) (n : nat) :
  (String.length s ≤ n)%nat → String.get n s = None.
Proof.
  revert n. induction s as [|c s IH]; intros n Hn; [reflexivity|].
  destruct n as [|n]; simpl in *; [lia|]. apply IH. lia.
Qed.

Lemma sextet_char_no_separator (n : N) : is_path_separator (sextet_char n) = false.
Proof.
  destruct (decide (n < 64)%N) as [Hn | Hn].
  - pose proof (sextet_cases (λ n, negb (is_path_separator (sextet_char n)))
                  ltac:(vm_compute; reflexivity) n Hn) as Hp.
    cbn beta in Hp. by apply negb_true_iff.
  - unfold sextet_char. rewrite string_get_none; [reflexivity|].
    change (String.length base64url_alphabet) with 64. lia.
Qed.

(** Quotient and remainder by a constant, as linear facts. *)
Lemma N_div_mod_facts (x d : N) :
  d ≠ 0%N → ∃ q r, (x / d = q ∧ x mod d = r ∧ x = d * q + r ∧ r < d)%N.
Proof.
  intros Hd. exists (x / d)%N, (x mod d)%N. split; [done|]. split; [done|].
  split; [by apply N.div_mod|by apply N.mod_lt].
Qed.

Ltac split_div_mod x d :=
  let q := fresh "q" in
  let r := fresh "r" in
  let Hq := fresh "Hq" in
  let Hr := fresh "Hr" in
  let Hx := fresh "Hx" in
  let Hlt := fresh "Hlt" in
  destruct (N_div_mod_facts x d ltac:(discriminate)) as (q & r & Hq & Hr & Hx & Hlt);
  rewrite ?Hq, ?Hr in *; clear Hq Hr.

Ltac byte_bounds :=
  repeat match goal with
         | a : ascii |- _ =>
             lazymatch goal with
             | _ : (N_of_ascii a < 256)%N |- _ => fail
             | _ => pose proof (N_ascii_bounded a)
             end
         end.

Lemma N_of_ascii_inj (a b : ascii) : N_of_ascii a = N_of_ascii b → a = b.
Proof.
  intros E. rewrite <- (ascii_N_embedding a), <- (ascii_N_embedding b). by rewrite E.
Qed.

(** The six-bit groups are in range. *)
Lemma sextet1_bound (a : ascii) : (N_of_ascii a / 4 < 64)%N.
Proof. byte_bounds. split_div_mod (N_of_ascii a) 4%N. lia. Qed.

Lemma sextet2_bound (a b : ascii) :
  ((N_of_ascii a mod 4) * 16 + N_of_ascii b / 16 < 64)%N.
Proof.
  byte_bounds. split_div_mod (N_of_ascii a) 4%N. split_div_mod (N_of_ascii b) 16%N. lia.
Qed.

Lemma sextet2_last_bound (a : ascii) : ((N_of_ascii a mod 4) * 16 < 64)%N.
Proof. split_div_mod (N_of_ascii a) 4%N. lia. Qed.

Lemma sextet3_bound (b c : ascii) :
  ((N_of_ascii b mod 16) * 4 + N_of_ascii c / 64 < 64)%N.
Proof.
  byte_bounds. split_div_mod (N_of_ascii b) 16%N. split_div_mod (N_of_ascii c) 64%N. lia.
Qed.

Lemma sextet3_last_bound (b : ascii) : ((N_of_ascii b mod 16) * 4 < 64)%N.
Proof. split_div_mod (N_of_ascii b) 16%N. lia. Qed.

Lemma sextet4_bound (c : ascii) : (N_of_ascii c mod 64 < 64)%N.
Proof. split_div_mod (N_of_ascii c) 64%N. lia. Qed.

Create HintDb sextet.
#[local] Hint Resolve sextet1_bound sextet2_bound sextet2_last_bound
  sextet3_bound sextet3_last_bound sextet4_bound : sextet.

(** The groups of one, two and three bytes determine the bytes. *)
Lemma group1_inj (a a' : ascii) :
  (N_of_ascii a / 4 = N_of_ascii a' / 4)%N →
  ((N_of_ascii a mod 4) * 16 = (N_of_ascii a' mod 4) * 16)%N →
  a = a'.
Proof.
  intros E0 E1. apply N_of_ascii_inj.
  split_div_mod (N_of_ascii a) 4%N. split_div_mod (N_of_ascii a') 4%N. lia.
Qed.

Lemma group2_inj (a b a' b' : ascii) :
  (N_of_ascii a / 4 = N_of_ascii a' / 4)%N →
  ((N_of_ascii a mod 4) * 16 + N_of_ascii b / 16
   = (N_of_ascii a' mod 4) * 16 + N_of_ascii b' / 16)%N →
  ((N_of_ascii b mod 16) * 4 = (N_of_ascii b' mod 16) * 4)%N →
  a = a' ∧ b = b'.
Proof.
  intros E0 E1 E2. byte_bounds.
  cut (N_of_ascii a = N_of_ascii a' ∧ N_of_ascii b = N_of_ascii b').
  { intros [? ?]. split; by apply N_of_ascii_inj. }
  split_div_mod (N_of_ascii a) 4%N. split_div_mod (N_of_ascii a') 4%N.
  split_div_mod (N_of_ascii b) 16%N. split_div_mod (N_of_ascii b') 16%N. lia.
Qed.

Lemma group3_inj (a b c a' b' c' : ascii) :
  (N_of_ascii a / 4 = N_of_ascii a' / 4)%N →
  ((N_of_ascii a mod 4) * 16 + N_of_ascii b / 16
   = (N_of_ascii a' mod 4) * 16 + N_of_ascii b' / 16)%N →
  ((N_of_ascii b mod 16) * 4 + N_of_ascii c / 64
   = (N_of_ascii b' mod 16) * 4 + N_of_ascii c' / 64)%N →
  (N_of_ascii c mod 64 = N_of_ascii c' mod 64)%N →
  a = a' ∧ b = b' ∧ c = c'.
Proof.
  intros E0 E1 E2 E3. byte_bounds.
  cut (N_of_ascii a = N_of_ascii a' ∧ N_of_ascii b = N_of_ascii b'
       ∧ N_of_ascii c = N_of_ascii c').
  { intros (? & ? & ?). repeat split; by apply N_of_ascii_inj. }
  split_div_mod (N_of_ascii a) 4%N. split_div_mod (N_of_ascii a') 4%N.
  split_div_mod (N_of_ascii b) 16%N. split_div_mod (N_of_ascii b') 16%N.
  split_div_mod (N_of_ascii c) 64%N. split_div_mod (N_of_ascii c') 64%N. lia.
Qed.

(** Induction on a string three characters at a time, as the encoder reads it. *)
Lemma string_triple_ind (P : string → Prop) :
  P "" →
  (∀ a, P (String a "")) →
  (∀ a b, P (String a (String b ""))) →
  (∀ a b c s, P s → P (String a (String b (String c s)))) →
  ∀ s, P s.
Proof.
  intros H0 H1 H2 H3 s.
  cut (P s ∧ (∀ a, P (String a s)) ∧ (∀ a b, P (String a (String b s)))); [tauto|].
  induction s as [|c s (IH0 & IH1 & IH2)]; [by auto|].
  split; [apply IH1|]. split; [intros a; apply IH2|]. intros a b. by apply H3.
Qed.

Ltac sextet_eq E :=
  apply sextet_char_inj in E; [|by auto with sextet|by auto with sextet].

Ltac pad_clash E :=
  first [ symmetry in E; by apply sextet_char_not_pad in E; auto with sextet
        | by apply sextet_char_not_pad in E; auto with sextet ].

Lemma urlSafeBase64Encode_inj (s1 s2 : string) :
  urlSafeBase64Encode s1 = urlSafeBase64Encode s2 → s1 = s2.
Proof.
  revert s2. induction s1 as [ | a | a b | a b c s1 IH] using string_triple_ind;
    intros [|a' [|b' [|c' s2]]] E; cbn [urlSafeBase64Encode] in E;
    try discriminate E; try reflexivity.
  - injection E as E0 E1. sextet_eq E0. sextet_eq E1.
    by rewrite (group1_inj a a').
  - injection E as E0 E1 E2. pad_clash E2.
  - injection E as E0 E1 E2 E3 Er. pad_clash E2.
  - injection E as E0 E1 E2. pad_clash E2.
  - injection E as E0 E1 E2. sextet_eq E0. sextet_eq E1. sextet_eq E2.
    by destruct (group2_inj a b a' b') as [-> ->].
  - injection E as E0 E1 E2 E3 Er. pad_clash E3.
  - injection E as E0 E1 E2 E3 Er. pad_clash E2.
  - injection E as E0 E1 E2 E3 Er. pad_clash E3.
  - injection E as E0 E1 E2 E3 Er. sextet_eq E0. sextet_eq E1. sextet_eq E2. sextet_eq E3.
    destruct (group3_inj a b c a' b' c') as (-> & -> & ->); try done.
    by rewrite (IH s2 Er).
Qed.

Lemma pad_no_separator : is_path_separator base64url_pad = false.
Proof. reflexivity. Qed.

Lemma urlSafeBase64Encode_no_separator (s : string) (c : ascii) :
  c ∈ String.list_ascii_of_string (urlSafeBase64Encode s) → is_path_separator c = false.
Proof.
  induction s as [ | a | a b | a b d s IH] using string_triple_ind;
    cbn [urlSafeBase64Encode String.list_ascii_of_string]; intros Hc.
  - by apply elem_of_nil in Hc.
  - repeat (apply elem_of_cons in Hc as [-> | Hc];
            [first [apply sextet_char_no_separator | apply pad_no_separator]|]).
    by apply elem_of_nil in Hc.
  - repeat (apply elem_of_cons in Hc as [-> | Hc];
            [first [apply sextet_char_no_separator | apply pad_no_separator]|]).
    by apply elem_of_nil in Hc.
  - do 4 (apply elem_of_cons in Hc as [-> | Hc]; [apply sextet_char_no_separator|]).
    by apply IH.
Qed.

(** C7.  The cache path is a function of the server identity: equal
    identities give equal paths, distinct identities give distinct paths,
    and no character of a path is a path separator. *)
Theorem cachePathFor_deterministic_injective_path_safe :
  (∀ s1 s2 : string, s1 = s2 → cachePathFor s1 = cachePathFor s2)
  ∧ (∀ s1 s2 : string, s1 ≠ s2 → cachePathFor s1 ≠ cachePathFor s2)
  ∧ (∀ (s : string) (c : ascii),
       c ∈ String.list_ascii_of_string (cachePathFor s) → is_path_separator c = false).
Proof.
  split; [by intros s1 s2 ->|]. split.
  - intros s1 s2 Hne E. apply Hne. by apply urlSafeBase64Encode_inj.
  - intros s c. apply urlSafeBase64Encode_no_separator.
Qed.

(** * Further properties of the resolver *)

(** ** One pass of lines 62-63 over the store *)

Lemma fresh_not_allocated (h : heap) (l : loc) :
  is_Some (h !! l) → l ≠ fresh (dom h).
Proof.
  intros Hl E. apply (is_fresh (dom h)). rewrite <- E. by apply elem_of_dom.
Qed.

Lemma headers_step_entry attach (requestHeaders callerHeaders : option loc) (h : heap)
    (k : string) :
  k ≠ "Accept" →
  read_headers (headers_step_store attach requestHeaders callerHeaders h)
    (headers_step_ref attach requestHeaders callerHeaders h) !! k
  = merged_entry attach requestHeaders callerHeaders h k.
Proof.
  intros Hk. unfold headers_step_store, headers_step_ref.
  rewrite heap_delete_lookup_ne by done.
  unfold merged_headers, merged_entry.
  destruct (attach && truthy_ref requestHeaders); cbn -[fresh]; [|done].
  rewrite lookup_insert_eq. cbn. rewrite lookup_union.
  destruct (read_headers h callerHeaders !! k), (read_headers h requestHeaders !! k); done.
Qed.

Lemma headers_step_no_Accept attach (requestHeaders callerHeaders : option loc) (h : heap) :
  read_headers (headers_step_store attach requestHeaders callerHeaders h)
    (headers_step_ref attach requestHeaders callerHeaders h) !! "Accept" = None.
Proof. apply merged_then_delete_result. Qed.

Lemma headers_step_keeps_no_Accept attach (requestHeaders callerHeaders r : option loc)
    (h : heap) :
  read_headers h r !! "Accept" = None →
  read_headers (headers_step_store attach requestHeaders callerHeaders h) r !! "Accept" = None.
Proof. intros Hr. by apply merged_then_delete_keeps_absent. Qed.

Lemma headers_step_lookup attach (requestHeaders callerHeaders : option loc) (h : heap)
    (l : loc) (m : gmap string string) :
  h !! l = Some m →
  headers_step_store attach requestHeaders callerHeaders h !! l
  = Some (if decide (Some l = headers_step_ref attach requestHeaders callerHeaders h)
          then delete "Accept" m else m).
Proof.
  intros Hl. unfold headers_step_store, headers_step_ref, merged_headers.
  destruct (attach && truthy_ref requestHeaders); cbn -[fresh].
  - assert (l ≠ fresh (dom h)) as Hne by (apply fresh_not_allocated; by rewrite Hl).
    rewrite lookup_alter_ne by done. rewrite lookup_insert_ne by done.
    rewrite decide_False by congruence. exact Hl.
  - destruct callerHeaders as [c|]; cbn.
    + destruct (decide (Some l = Some c)) as [[= <-] | Hne].
      * rewrite lookup_alter_eq, Hl. done.
      * rewrite lookup_alter_ne by congruence. exact Hl.
    + rewrite decide_False by done. exact Hl.
Qed.

Lemma headers_step_frame attach (requestHeaders callerHeaders r : option loc) (h : heap)
    (k : string) :
  allocated h r → k ≠ "Accept" →
  read_headers (headers_step_store attach requestHeaders callerHeaders h) r !! k
  = read_headers h r !! k.
Proof.
  intros Hr Hk. destruct r as [l|]; [|done]. destruct Hr as [m Hm]. cbn.
  rewrite (headers_step_lookup _ _ _ _ _ _ Hm), Hm. cbn.
  case_decide; [by rewrite lookup_delete_ne|done].
Qed.

Lemma headers_step_allocated attach (requestHeaders callerHeaders r : option loc) (h : heap) :
  allocated h r → allocated (headers_step_store attach requestHeaders callerHeaders h) r.
Proof.
  destruct r as [l|]; [|done]. intros [m Hm]. cbn.
  rewrite (headers_step_lookup _ _ _ _ _ _ Hm). by eexists.
Qed.

Lemma headers_step_ref_allocated attach (requestHeaders callerHeaders : option loc) (h : heap) :
  allocated h callerHeaders →
  allocated (headers_step_store attach requestHeaders callerHeaders h)
    (headers_step_ref attach requestHeaders callerHeaders h).
Proof.
  intros Hc. unfold headers_step_store, headers_step_ref, merged_headers.
  destruct (attach && truthy_ref requestHeaders); cbn -[fresh].
  - rewrite lookup_alter_eq, lookup_insert_eq. by eexists.
  - destruct callerHeaders as [c|]; [|done]. destruct Hc as [m Hm]. cbn.
    rewrite lookup_alter_eq, Hm. by eexists.
Qed.

Lemma headers_step_ref_caller attach (requestHeaders callerHeaders : option loc) (h : heap) :
  attach && truthy_ref requestHeaders = false →
  headers_step_ref attach requestHeaders callerHeaders h = callerHeaders.
Proof. intros Ha. unfold headers_step_ref, merged_headers. by rewrite Ha. Qed.

Lemma headers_step_ref_is_caller_or_new attach (requestHeaders callerHeaders : option loc)
    (h : heap) (l : loc) :
  is_Some (h !! l) →
  Some l = headers_step_ref attach requestHeaders callerHeaders h →
  Some l = callerHeaders.
Proof.
  intros Hl. unfold headers_step_ref, merged_headers.
  destruct (attach && truthy_ref requestHeaders); cbn -[fresh]; [|done].
  intros [= E]. by destruct (fresh_not_allocated h l).
Qed.

Lemma merged_entry_frame attach (requestHeaders callerHeaders : option loc) (h h' : heap)
    (k : string) :
  (∀ r, allocated h r → read_headers h' r !! k = read_headers h r !! k) →
  allocated h requestHeaders → allocated h callerHeaders →
  merged_entry attach requestHeaders callerHeaders h' k
  = merged_entry attach requestHeaders callerHeaders h k.
Proof.
  intros Hf Hr Hc. unfold merged_entry. by rewrite !Hf.
Qed.

(** ** The two memos as passes over the store *)

Section RenderFacts.
Context `{URLParser}.

Lemma shouldAttach_undefined (serverUrl : string) :
  shouldAttachServerAuthHeaders None serverUrl = Normal false.
Proof. reflexivity. Qed.

Lemma ExpoImage_source_step p serverUrl (requestHeaders : option loc) (h : heap) :
  let s := source_fields (props_source p) in
  ∃ a source,
    shouldAttachServerAuthHeaders (uri s) serverUrl = Normal a
    ∧ ExpoImage_source p serverUrl requestHeaders h
      = Normal (source, headers_step_store a requestHeaders (headers s) h)
    ∧ source_headers source = headers_step_ref a requestHeaders (headers s) h
    ∧ source_cache source = source_cache (ExpoImageBackground_source p serverUrl)
    ∧ uri (source_fields source) = uri s
    ∧ others (source_fields source) = others s.
Proof.
  intros s. destruct (props_source p) as [n | s0 | ] eqn:Hp.
  - exists false, (SrcNumber n). subst s. split; [reflexivity|].
    split; [by apply ExpoImage_source_number|].
    unfold ExpoImageBackground_source. rewrite Hp. done.
  - destruct (ExpoImage_source_run p serverUrl requestHeaders h) as (a & Ha & Hr);
      [rewrite Hp; done|].
    rewrite Hp in Ha, Hr. cbn [source_fields] in Ha, Hr. subst s.
    exists a. eexists. split; [exact Ha|]. split; [exact Hr|].
    unfold ExpoImageBackground_source. rewrite Hp.
    destruct (truthy_id (props_id p)); done.
  - destruct (ExpoImage_source_run p serverUrl requestHeaders h) as (a & Ha & Hr);
      [rewrite Hp; done|].
    rewrite Hp in Ha, Hr. cbn [source_fields] in Ha, Hr. subst s.
    exists a. eexists. split; [exact Ha|]. split; [exact Hr|].
    unfold ExpoImageBackground_source. rewrite Hp.
    destruct (truthy_id (props_id p)); done.
Qed.

Lemma ExpoImage_placeholder_step p serverUrl (requestHeaders : option loc) (h : heap) :
  let t := placeholder_fields (props_placeholder p) in
  ∃ a placeholder,
    shouldAttachServerAuthHeaders (uri t) serverUrl = Normal a
    ∧ ExpoImage_placeholder p serverUrl requestHeaders h
      = Normal (placeholder, headers_step_store a requestHeaders (headers t) h)
    ∧ placeholder_headers placeholder = headers_step_ref a requestHeaders (headers t) h
    ∧ placeholder_cache placeholder
      = placeholder_cache (ExpoImageBackground_placeholder p serverUrl)
    ∧ uri (placeholder_fields placeholder) = uri t
    ∧ others (placeholder_fields placeholder) = others t.
Proof.
  intros t. destruct (props_placeholder p) as [ | n | x | s0] eqn:Hp.
  4: { destruct (ExpoImage_placeholder_run p serverUrl requestHeaders h s0 Hp)
         as (a & Ha & Hr).
       subst t. exists a. eexists. split; [exact Ha|]. split; [exact Hr|].
       unfold ExpoImageBackground_placeholder. rewrite Hp.
       destruct (truthy_opt_string (uri s0)), (truthy_id (props_id p)); done. }
  all: exists false; eexists; subst t; split; [reflexivity|].
  all: split; [apply ExpoImage_placeholder_passthrough; rewrite Hp; done|].
  all: unfold ExpoImageBackground_placeholder; rewrite Hp; done.
Qed.

(** One render: the source pass, then the placeholder pass on the store
    the source pass left. *)
Lemma ExpoImage_steps p serverUrl (requestHeaders : option loc) (h : heap) :
  let s := source_fields (props_source p) in
  let t := placeholder_fields (props_placeholder p) in
  ∃ a_s a_p source placeholder,
    shouldAttachServerAuthHeaders (uri s) serverUrl = Normal a_s
    ∧ shouldAttachServerAuthHeaders (uri t) serverUrl = Normal a_p
    ∧ let h1 := headers_step_store a_s requestHeaders (headers s) h in
      ExpoImage p serverUrl requestHeaders h
      = Normal (source, placeholder, headers_step_store a_p requestHeaders (headers t) h1)
      ∧ source_headers source = headers_step_ref a_s requestHeaders (headers s) h
      ∧ placeholder_headers placeholder
        = headers_step_ref a_p requestHeaders (headers t) h1
      ∧ source_cache source = source_cache (ExpoImageBackground_source p serverUrl)
      ∧ placeholder_cache placeholder
        = placeholder_cache (ExpoImageBackground_placeholder p serverUrl)
      ∧ uri (source_fields source) = uri s
      ∧ others (source_fields source) = others s
      ∧ uri (placeholder_fields placeholder) = uri t
      ∧ others (placeholder_fields placeholder) = others t.
Proof.
  intros s t.
  destruct (ExpoImage_source_step p serverUrl requestHeaders h)
    as (a_s & source & Has & Hrs & Hhs & Hcs & Hus & Hos).
  destruct (ExpoImage_placeholder_step p serverUrl requestHeaders
              (headers_step_store a_s requestHeaders (headers s) h))
    as (a_p & placeholder & Hap & Hrp & Hhp & Hcp & Hup & Hop).
  exists a_s, a_p, source, placeholder. split; [exact Has|]. split; [exact Hap|].
  cbn zeta. split.
  - unfold ExpoImage, mbind, M_mbind. rewrite Hrs. fold s. rewrite Hrp. reflexivity.
  - by repeat split.
Qed.
End RenderFacts.

(** ** What a render leaves in the headers *)

(** X1.  After a render of [ExpoImage], every entry other than [Accept] of
    the resolved source's headers is the caller's entry when the caller has
    one, the entry of the server's headers otherwise, if the origin test
    succeeds and the server's headers are available; it is the caller's
    entry in every other case. *)
Theorem source_headers_caller_over_server `{URLParser} (p : ExpoImageProps)
    (serverUrl : string) (requestHeaders : option loc) (h : heap) :
  allocated h (headers (source_fields (props_source p))) →
  ∃ a source placeholder h',
    shouldAttachServerAuthHeaders (uri (source_fields (props_source p))) serverUrl
    = Normal a
    ∧ ExpoImage p serverUrl requestHeaders h = Normal (source, placeholder, h')
    ∧ ∀ k, k ≠ "Accept" →
        read_headers h' (source_headers source) !! k
        = merged_entry a requestHeaders (headers (source_fields (props_source p))) h k.
Proof.
  intros Hc.
  destruct (ExpoImage_steps p serverUrl requestHeaders h)
    as (a_s & a_p & source & placeholder & Has & _ & Hr & Hhs & _).
  exists a_s, source, placeholder. eexists. split; [exact Has|]. split; [exact Hr|].
  intros k Hk. rewrite Hhs.
  rewrite headers_step_frame by (by apply headers_step_ref_allocated || done).
  by apply headers_step_entry.
Qed.

Lemma source_headers_caller_over_server_witness :
  ∃ a source placeholder h',
    shouldAttachServerAuthHeaders (uri api_image_with_headers) "https://chat.example.com"
    = Normal a
    ∧ ExpoImage mixed_props "https://chat.example.com" (Some 2%positive) client_store
      = Normal (source, placeholder, h')
    ∧ ∀ k, k ≠ "Accept" →
        read_headers h' (source_headers source) !! k
        = merged_entry a (Some 2%positive) (Some 1%positive) client_store k.
Proof.
  apply (source_headers_caller_over_server mixed_props "https://chat.example.com"
           (Some 2%positive) client_store).
  vm_compute. by eexists.
Defined.

(** X2.  The placeholder is resolved on its own URI: every entry other than
    [Accept] of its resolved headers is determined by the outcome of the
    origin test on the placeholder's URI and by the entries the caller's
    placeholder headers and the server's headers had before the render,
    whatever the source memo did before. *)
Theorem placeholder_headers_decided_by_own_uri `{URLParser} (p : ExpoImageProps)
    (serverUrl : string) (requestHeaders : option loc) (h : heap) :
  allocated h requestHeaders →
  allocated h (headers (placeholder_fields (props_placeholder p))) →
  ∃ a source placeholder h',
    shouldAttachServerAuthHeaders (uri (placeholder_fields (props_placeholder p))) serverUrl
    = Normal a
    ∧ ExpoImage p serverUrl requestHeaders h = Normal (source, placeholder, h')
    ∧ ∀ k, k ≠ "Accept" →
        read_headers h' (placeholder_headers placeholder) !! k
        = merged_entry a requestHeaders
            (headers (placeholder_fields (props_placeholder p))) h k.
Proof.
  intros Hrh Hc.
  destruct (ExpoImage_steps p serverUrl requestHeaders h)
    as (a_s & a_p & source & placeholder & _ & Hap & Hr & _ & Hhp & _).
  exists a_p, source, placeholder. eexists. split; [exact Hap|]. split; [exact Hr|].
  intros k Hk. rewrite Hhp, headers_step_entry by done.
  apply merged_entry_frame; [|done|done].
  intros r Hal. by apply headers_step_frame.
Qed.

Lemma placeholder_headers_decided_by_own_uri_witness :
  ∃ a source placeholder h',
    shouldAttachServerAuthHeaders (uri cdn_image) "https://chat.example.com" = Normal a
    ∧ ExpoImage mixed_props "https://chat.example.com" (Some 2%positive) client_store
      = Normal (source, placeholder, h')
    ∧ ∀ k, k ≠ "Accept" →
        read_headers h' (placeholder_headers placeholder) !! k
        = merged_entry a (Some 2%positive) (Some 1%positive) client_store k.
Proof.
  apply (placeholder_headers_decided_by_own_uri mixed_props "https://chat.example.com"
           (Some 2%positive) client_store).
  - vm_compute. by eexists.
  - vm_compute. by eexists.
Defined.

(** X3.  A render removes no header object from the store and changes no
    entry other than [Accept] of any object the store held before. *)
Theorem render_changes_only_Accept `{URLParser} (p : ExpoImageProps)
    (serverUrl : string) (requestHeaders : option loc) (h : heap) :
  ∃ source placeholder h',
    ExpoImage p serverUrl requestHeaders h = Normal (source, placeholder, h')
    ∧ ∀ l m, h !! l = Some m →
        ∃ m', h' !! l = Some m' ∧ ∀ k, k ≠ "Accept" → m' !! k = m !! k.
Proof.
  destruct (ExpoImage_steps p serverUrl requestHeaders h)
    as (a_s & a_p & source & placeholder & _ & _ & Hr & _).
  exists source, placeholder. eexists. split; [exact Hr|].
  intros l m Hm.
  pose proof (headers_step_lookup a_s requestHeaders
                (headers (source_fields (props_source p))) h l m Hm) as H1.
  pose proof (headers_step_lookup a_p requestHeaders
                (headers (placeholder_fields (props_placeholder p))) _ l _ H1) as H2.
  eexists. split; [exact H2|].
  intros k Hk. repeat case_decide; rewrite ?lookup_delete_ne by done; done.
Qed.

(** X4.  A render leaves every header object of the store as it is, its
    [Accept] entry included, except the two objects the caller passed as
    headers of the source and of the placeholder. *)
Theorem render_touches_only_caller_headers `{URLParser} (p : ExpoImageProps)
    (serverUrl : string) (requestHeaders : option loc) (h : heap)
    (l : loc) (m : gmap string string) :
  h !! l = Some m →
  Some l ≠ headers (source_fields (props_source p)) →
  Some l ≠ headers (placeholder_fields (props_placeholder p)) →
  ∃ source placeholder h',
    ExpoImage p serverUrl requestHeaders h = Normal (source, placeholder, h')
    ∧ h' !! l = Some m.
Proof.
  intros Hm Hs Ht.
  destruct (ExpoImage_steps p serverUrl requestHeaders h)
    as (a_s & a_p & source & placeholder & _ & _ & Hr & _).
  exists source, placeholder. eexists. split; [exact Hr|].
  pose proof (headers_step_lookup a_s requestHeaders
                (headers (source_fields (props_source p))) h l m Hm) as H1.
  rewrite decide_False in H1.
  2: { intros E. apply Hs. eapply headers_step_ref_is_caller_or_new; [|exact E].
       by rewrite Hm. }
  pose proof (headers_step_lookup a_p requestHeaders
                (headers (placeholder_fields (props_placeholder p))) _ l _ H1) as H2.
  rewrite decide_False in H2; [exact H2|].
  intros E. apply Ht. eapply headers_step_ref_is_caller_or_new; [|exact E].
  by rewrite H1.
Qed.

Lemma render_touches_only_caller_headers_witness :
  ∃ source placeholder h',
    ExpoImage mixed_props "https://chat.example.com" (Some 2%positive) client_store
    = Normal (source, placeholder, h')
    ∧ h' !! 2%positive
      = Some {[ "Authorization" := "Bearer T"; "Accept" := "*/*"; "X-Trace" := "server" ]}.
Proof.
  apply (render_touches_only_caller_headers mixed_props "https://chat.example.com"
           (Some 2%positive) client_store 2%positive).
  - reflexivity.
  - discriminate.
  - discriminate.
Defined.

(** ** Credentials stay with the server's origin *)

Section ForeignOrigin.
Context `{URLParser}.

Lemma shouldAttach_foreign (u serverUrl : string) (ru su : URL) :
  new_URL u = Normal ru → new_URL serverUrl = Normal su →
  origin ru ≠ origin su →
  shouldAttachServerAuthHeaders (Some u) serverUrl = Normal false.
Proof.
  intros Hu Hs Ho. rewrite (shouldAttach_parsed _ _ _ _ Hu Hs).
  by destruct (String.eqb_spec (origin ru) (origin su)).
Qed.

End ForeignOrigin.

(** X5.  A source whose URI parses to another origin than the server's
    keeps the caller's header object, and after the render that object
    holds no entry the caller did not supply: no header of the server
    reaches a request to a foreign origin. *)
Theorem foreign_origin_source_gets_no_server_header `{URLParser} (p : ExpoImageProps)
    (serverUrl : string) (requestHeaders : option loc) (h : heap)
    (s : ImageSource) (u : string) (ru su : URL) :
  props_source p = SrcObject s →
  uri s = Some u →
  new_URL u = Normal ru →
  new_URL serverUrl = Normal su →
  origin ru ≠ origin su →
  allocated h (headers s) →
  ∃ source placeholder h',
    ExpoImage p serverUrl requestHeaders h = Normal (source, placeholder, h')
    ∧ source_headers source = headers s
    ∧ ∀ k v, read_headers h' (source_headers source) !! k = Some v →
             read_headers h (headers s) !! k = Some v.
Proof.
  intros Hp Hu Hru Hsu Ho Hal.
  destruct (ExpoImage_steps p serverUrl requestHeaders h)
    as (a_s & a_p & source & placeholder & Has & _ & Hr & Hhs & _).
  rewrite Hp in Has, Hr, Hhs. cbn [source_fields] in Has, Hr, Hhs.
  rewrite Hu, (shouldAttach_foreign _ _ _ _ Hru Hsu Ho) in Has.
  injection Has as <-.
  exists source, placeholder. eexists. split; [exact Hr|].
  rewrite Hhs. split; [by apply headers_step_ref_caller|].
  rewrite headers_step_ref_caller by done.
  intros k v Hk. destruct (decide (k = "Accept")) as [-> | Hne].
  - rewrite headers_step_keeps_no_Accept in Hk; [done|].
    rewrite <- (headers_step_ref_caller false requestHeaders (headers s) h) at 2 by done.
    apply headers_step_no_Accept.
  - rewrite headers_step_frame in Hk by (by apply headers_step_allocated || done).
    by rewrite headers_step_frame in Hk.
Qed.

Lemma foreign_origin_source_gets_no_server_header_witness :
  ∃ source placeholder h',
    ExpoImage cdn_props "https://chat.example.com" (Some 2%positive) client_store
    = Normal (source, placeholder, h')
    ∧ source_headers source = Some 1%positive
    ∧ ∀ k v, read_headers h' (source_headers source) !! k = Some v →
             read_headers client_store (Some 1%positive) !! k = Some v.
Proof.
  apply (foreign_origin_source_gets_no_server_header cdn_props "https://chat.example.com"
           (Some 2%positive) client_store cdn_image "https://cdn.example.com/logo.png"
           {| origin := "https://cdn.example.com"; pathname := "/logo.png" |}
           {| origin := "https://chat.example.com"; pathname := "/" |}).
  - reflexivity.
  - reflexivity.
  - reflexivity.
  - reflexivity.
  - discriminate.
  - vm_compute. by eexists.
Defined.

(** X6.  A placeholder whose URI parses to another origin than the server's
    keeps the caller's header object and gains no entry, also in a render
    whose source is on the server's API and does get the server's headers:
    the placeholder does not inherit them. *)
Theorem foreign_origin_placeholder_gets_no_server_header `{URLParser} (p : ExpoImageProps)
    (serverUrl : string) (requestHeaders : option loc) (h : heap)
    (t : ImageSource) (u : string) (ru su : URL) :
  props_placeholder p = PhObject t →
  uri t = Some u →
  new_URL u = Normal ru →
  new_URL serverUrl = Normal su →
  origin ru ≠ origin su →
  allocated h (headers t) →
  ∃ source placeholder h',
    ExpoImage p serverUrl requestHeaders h = Normal (source, placeholder, h')
    ∧ placeholder_headers placeholder = headers t
    ∧ ∀ k v, read_headers h' (placeholder_headers placeholder) !! k = Some v →
             read_headers h (headers t) !! k = Some v.
Proof.
  intros Hp Hu Hru Hsu Ho Hal.
  destruct (ExpoImage_steps p serverUrl requestHeaders h)
    as (a_s & a_p & source & placeholder & _ & Hap & Hr & _ & Hhp & _).
  rewrite Hp in Hap, Hr, Hhp. cbn [placeholder_fields] in Hap, Hr, Hhp.
  rewrite Hu, (shouldAttach_foreign _ _ _ _ Hru Hsu Ho) in Hap.
  injection Hap as <-.
  exists source, placeholder. eexists. split; [exact Hr|].
  rewrite Hhp. split; [by apply headers_step_ref_caller|].
  intros k v Hk. destruct (decide (k = "Accept")) as [-> | Hne].
  - by rewrite headers_step_no_Accept in Hk.
  - rewrite headers_step_entry in Hk by done. unfold merged_entry in Hk.
    cbn in Hk. by rewrite headers_step_frame in Hk.
Qed.

Lemma foreign_origin_placeholder_gets_no_server_header_witness :
  ∃ source placeholder h',
    ExpoImage mixed_props "https://chat.example.com" (Some 2%positive) client_store
    = Normal (source, placeholder, h')
    ∧ placeholder_headers placeholder = Some 1%positive
    ∧ ∀ k v, read_headers h' (placeholder_headers placeholder) !! k = Some v →
             read_headers client_store (Some 1%positive) !! k = Some v.
Proof.
  apply (foreign_origin_placeholder_gets_no_server_header mixed_props
           "https://chat.example.com" (Some 2%positive) client_store cdn_image
           "https://cdn.example.com/logo.png"
           {| origin := "https://cdn.example.com"; pathname := "/logo.png" |}
           {| origin := "https://chat.example.com"; pathname := "/" |}).
  - reflexivity.
  - reflexivity.
  - reflexivity.
  - reflexivity.
  - discriminate.
  - vm_compute. by eexists.
Defined.

(** ** Cache coordinates and the two components *)

(** X7.  A placeholder descriptor without a (non-empty) [uri] is never
    keyed: whatever the [id], both components leave it the cache coordinates
    the caller gave it. *)
Theorem placeholder_without_uri_is_not_keyed `{URLParser} (p : ExpoImageProps)
    (serverUrl : string) (requestHeaders : option loc) (h : heap) (t : ImageSource) :
  props_placeholder p = PhObject t →
  truthy_opt_string (uri t) = false →
  (∃ source placeholder h',
     ExpoImage p serverUrl requestHeaders h = Normal (source, placeholder, h')
     ∧ placeholder_cache placeholder = (cacheKey t, cachePath t))
  ∧ placeholder_cache (ExpoImageBackground p serverUrl).2 = (cacheKey t, cachePath t).
Proof.
  intros Hp Hu.
  assert (placeholder_cache (ExpoImageBackground_placeholder p serverUrl)
          = (cacheKey t, cachePath t)) as Hbg.
  { unfold ExpoImageBackground_placeholder. by rewrite Hp, Hu. }
  split; [|exact Hbg].
  destruct (ExpoImage_steps p serverUrl requestHeaders h)
    as (a_s & a_p & source & placeholder & _ & _ & Hr & _ & _ & _ & Hcp & _).
  exists source, placeholder. eexists. split; [exact Hr|]. by rewrite Hcp.
Qed.

Lemma placeholder_without_uri_is_not_keyed_witness :
  placeholder_cache (ExpoImageBackground blurhash_props "https://chat.example.com").2
  = (None, None).
Proof.
  apply (placeholder_without_uri_is_not_keyed blurhash_props "https://chat.example.com"
           None ∅ blurhash_image); reflexivity.
Defined.

Lemma ExpoImageBackground_source_fields (p : ExpoImageProps) (serverUrl : string) :
  uri (source_fields (ExpoImageBackground_source p serverUrl))
  = uri (source_fields (props_source p))
  ∧ others (source_fields (ExpoImageBackground_source p serverUrl))
    = others (source_fields (props_source p)).
Proof.
  unfold ExpoImageBackground_source.
  destruct (props_source p), (truthy_id (props_id p)); done.
Qed.

Lemma ExpoImageBackground_placeholder_fields (p : ExpoImageProps) (serverUrl : string) :
  uri (placeholder_fields (ExpoImageBackground_placeholder p serverUrl))
  = uri (placeholder_fields (props_placeholder p))
  ∧ others (placeholder_fields (ExpoImageBackground_placeholder p serverUrl))
    = others (placeholder_fields (props_placeholder p)).
Proof.
  unfold ExpoImageBackground_placeholder.
  destruct (props_placeholder p) as [ | | | t]; try done.
  destruct (truthy_opt_string (uri t)), (truthy_id (props_id p)); done.
Qed.

(** X8.  On the same props and server, [ExpoImage] and [ExpoImageBackground]
    resolve the source and the placeholder to the same [uri], the same
    [cacheKey] and [cachePath] and the same other properties: the two
    components differ in the headers only. *)
Theorem components_agree_up_to_headers `{URLParser} (p : ExpoImageProps)
    (serverUrl : string) (requestHeaders : option loc) (h : heap) :
  ∃ source placeholder h',
    ExpoImage p serverUrl requestHeaders h = Normal (source, placeholder, h')
    ∧ source_cache source = source_cache (ExpoImageBackground p serverUrl).1
    ∧ uri (source_fields source) = uri (source_fields (ExpoImageBackground p serverUrl).1)
    ∧ others (source_fields source)
      = others (source_fields (ExpoImageBackground p serverUrl).1)
    ∧ placeholder_cache placeholder = placeholder_cache (ExpoImageBackground p serverUrl).2
    ∧ uri (placeholder_fields placeholder)
      = uri (placeholder_fields (ExpoImageBackground p serverUrl).2)
    ∧ others (placeholder_fields placeholder)
      = others (placeholder_fields (ExpoImageBackground p serverUrl).2).
Proof.
  destruct (ExpoImage_steps p serverUrl requestHeaders h)
    as (a_s & a_p & source & placeholder & _ & _ & Hr & _ & _ & Hcs & Hcp
        & Hus & Hos & Hup & Hop).
  destruct (ExpoImageBackground_source_fields p serverUrl) as [Hbu Hbo].
  destruct (ExpoImageBackground_placeholder_fields p serverUrl) as [Hpu Hpo].
  exists source, placeholder. eexists. split; [exact Hr|]. cbn [fst snd ExpoImageBackground].
  rewrite Hbu, Hbo, Hpu, Hpo. by repeat split.
Qed.

(** X9.  An [id] that is the empty string counts as no [id]: both components
    resolve the props as they resolve the same props without an [id], so
    neither descriptor is keyed. *)
Theorem empty_id_is_no_id `{URLParser} (source : SourceValue) (placeholder : PlaceholderValue)
    (policy : option CachePolicy) (serverUrl : string) (requestHeaders : option loc)
    (h : heap) :
  let with_empty := {| props_id := Some ""; props_source := source;
                       props_placeholder := placeholder; props_cachePolicy := policy |} in
  let without := {| props_id := None; props_source := source;
                    props_placeholder := placeholder; props_cachePolicy := policy |} in
  ExpoImage with_empty serverUrl requestHeaders h
  = ExpoImage without serverUrl requestHeaders h
  ∧ ExpoImageBackground with_empty serverUrl = ExpoImageBackground without serverUrl
  ∧ ∃ src ph h',
      ExpoImage with_empty serverUrl requestHeaders h = Normal (src, ph, h')
      ∧ source_cache src = source_cache source
      ∧ placeholder_cache ph = placeholder_cache placeholder.
Proof.
  intros with_empty without. split; [reflexivity|]. split; [reflexivity|].
  destruct (ExpoImage_steps with_empty serverUrl requestHeaders h)
    as (a_s & a_p & src & ph & _ & _ & Hr & _ & _ & Hcs & Hcp & _).
  exists src, ph. eexists. split; [exact Hr|]. rewrite Hcs, Hcp.
  split.
  - by destruct source.
  - destruct placeholder as [ | | | t]; try done.
    cbn. by destruct (truthy_opt_string (uri t)).
Qed.

(** ** Rendering again *)

Lemma two_steps_frame a_s a_p (requestHeaders c_s c_p r : option loc) (h : heap) (k : string) :
  allocated h r → k ≠ "Accept" →
  read_headers (headers_step_store a_p requestHeaders c_p
                  (headers_step_store a_s requestHeaders c_s h)) r !! k
  = read_headers h r !! k.
Proof.
  intros Hr Hk. rewrite headers_step_frame by (by apply headers_step_allocated || done).
  by apply headers_step_frame.
Qed.

Lemma two_steps_allocated a_s a_p (requestHeaders c_s c_p r : option loc) (h : heap) :
  allocated h r →
  allocated (headers_step_store a_p requestHeaders c_p
               (headers_step_store a_s requestHeaders c_s h)) r.
Proof. intros Hr. by do 2 apply headers_step_allocated. Qed.

(** The headers of the resolved source and placeholder in the store a
    render leaves, entry by entry. *)
Lemma two_steps_source_entry a_s a_p (requestHeaders c_s c_p : option loc) (h : heap)
    (k : string) :
  allocated h c_s →
  read_headers (headers_step_store a_p requestHeaders c_p
                  (headers_step_store a_s requestHeaders c_s h))
    (headers_step_ref a_s requestHeaders c_s h) !! k
  = if decide (k = "Accept") then None else merged_entry a_s requestHeaders c_s h k.
Proof.
  intros Hc. case_decide as Hk.
  - subst k. apply headers_step_keeps_no_Accept, headers_step_no_Accept.
  - rewrite headers_step_frame by (by apply headers_step_ref_allocated || done).
    by apply headers_step_entry.
Qed.

Lemma two_steps_placeholder_entry a_s a_p (requestHeaders c_s c_p : option loc) (h : heap)
    (k : string) :
  allocated h requestHeaders → allocated h c_p →
  read_headers (headers_step_store a_p requestHeaders c_p
                  (headers_step_store a_s requestHeaders c_s h))
    (headers_step_ref a_p requestHeaders c_p (headers_step_store a_s requestHeaders c_s h))
  !! k
  = if decide (k = "Accept") then None else merged_entry a_p requestHeaders c_p h k.
Proof.
  intros Hr Hc. case_decide as Hk.
  - subst k. apply headers_step_no_Accept.
  - rewrite headers_step_entry by done.
    apply merged_entry_frame; [|done|done].
    intros r Hal. by apply headers_step_frame.
Qed.

(** X10.  Rendering the same props again in the store the first render left
    resolves the source and the placeholder to headers with the same
    entries and to the same cache coordinates: the deletion of [Accept] on
    the caller's objects does not change what a later render produces. *)
Theorem render_again_same_descriptors `{URLParser} (p : ExpoImageProps)
    (serverUrl : string) (requestHeaders : option loc) (h : heap) :
  allocated h requestHeaders →
  allocated h (headers (source_fields (props_source p))) →
  allocated h (headers (placeholder_fields (props_placeholder p))) →
  ∃ source placeholder h' source2 placeholder2 h'',
    ExpoImage p serverUrl requestHeaders h = Normal (source, placeholder, h')
    ∧ ExpoImage p serverUrl requestHeaders h' = Normal (source2, placeholder2, h'')
    ∧ read_headers h'' (source_headers source2) = read_headers h' (source_headers source)
    ∧ read_headers h'' (placeholder_headers placeholder2)
      = read_headers h' (placeholder_headers placeholder)
    ∧ source_cache source2 = source_cache source
    ∧ placeholder_cache placeholder2 = placeholder_cache placeholder.
Proof.
  intros Hrh Hs Ht.
  destruct (ExpoImage_steps p serverUrl requestHeaders h)
    as (a_s & a_p & source & placeholder & Has & Hap & Hr & Hhs & Hhp & Hcs & Hcp & _).
  cbn zeta in Hr, Hhp.
  set (c_s := headers (source_fields (props_source p))) in *.
  set (c_p := headers (placeholder_fields (props_placeholder p))) in *.
  set (h' := headers_step_store a_p requestHeaders c_p
               (headers_step_store a_s requestHeaders c_s h)) in *.
  destruct (ExpoImage_steps p serverUrl requestHeaders h')
    as (b_s & b_p & source2 & placeholder2 & Hbs & Hbp & Hr2 & Hhs2 & Hhp2
        & Hcs2 & Hcp2 & _).
  cbn zeta in Hr2, Hhp2. fold c_s c_p in Hr2, Hhs2, Hhp2, Hbs, Hbp.
  rewrite Has in Hbs. injection Hbs as <-.
  rewrite Hap in Hbp. injection Hbp as <-.
  assert (∀ r k, allocated h r → k ≠ "Accept" →
                 read_headers h' r !! k = read_headers h r !! k) as Hframe.
  { intros r k Hal Hk. by apply two_steps_frame. }
  assert (∀ r, allocated h r → allocated h' r) as Halloc.
  { intros r Hal. by apply two_steps_allocated. }
  exists source, placeholder, h', source2, placeholder2. eexists.
  split; [exact Hr|]. split; [exact Hr2|].
  split; [|split; [|split; congruence]].
  - apply map_eq. intros k. rewrite Hhs2, Hhs.
    rewrite (two_steps_source_entry a_s a_p requestHeaders c_s c_p h') by auto.
    unfold h' at 1. rewrite (two_steps_source_entry a_s a_p requestHeaders c_s c_p h) by auto.
    destruct (decide (k = "Accept")); [done|].
    apply merged_entry_frame; [|done|done]. intros r Hal. by apply Hframe.
  - apply map_eq. intros k. rewrite Hhp2, Hhp.
    rewrite (two_steps_placeholder_entry a_s a_p requestHeaders c_s c_p h') by auto.
    unfold h' at 1.
    rewrite (two_steps_placeholder_entry a_s a_p requestHeaders c_s c_p h) by auto.
    destruct (decide (k = "Accept")); [done|].
    apply merged_entry_frame; [|done|done]. intros r Hal. by apply Hframe.
Qed.

Lemma render_again_same_descriptors_witness :
  ∃ source placeholder h' source2 placeholder2 h'',
    ExpoImage mixed_props "https://chat.example.com" (Some 2%positive) client_store
    = Normal (source, placeholder, h')
    ∧ ExpoImage mixed_props "https://chat.example.com" (Some 2%positive) h'
      = Normal (source2, placeholder2, h'')
    ∧ read_headers h'' (source_headers source2) = read_headers h' (source_headers source)
    ∧ read_headers h'' (placeholder_headers placeholder2)
      = read_headers h' (placeholder_headers placeholder)
    ∧ source_cache source2 = source_cache source
    ∧ placeholder_cache placeholder2 = placeholder_cache placeholder.
Proof.
  apply (render_again_same_descriptors mixed_props "https://chat.example.com"
           (Some 2%positive) client_store).
  - vm_compute. by eexists.
  - vm_compute. by eexists.
  - vm_compute. by eexists.
Defined.

(** ** The predicate and the client lookup *)

(** X11.  The predicate answers [true] only for a defined URI that parses,
    against a server identity that parses, with equal origins and a path
    under [/api/v4/], and for every such pair. *)
Theorem shouldAttach_true_iff `{URLParser} (uri : option string) (serverUrl : string) :
  shouldAttachServerAuthHeaders uri serverUrl = Normal true
  ↔ ∃ u ru su,
      uri = Some u
      ∧ new_URL u = Normal ru
      ∧ new_URL serverUrl = Normal su
      ∧ origin ru = origin su
      ∧ startsWith "/api/v4/" (pathname ru) = true.
Proof.
  split.
  - intros Ht. destruct uri as [u|]; [|discriminate Ht].
    destruct (new_URL u) as [ru|] eqn:Hu.
    2: { unfold shouldAttachServerAuthHeaders in Ht.
         destruct (truthy_string u); cbn [negb] in Ht; [|discriminate Ht].
         rewrite shouldAttach_try_throws in Ht by (by left). discriminate Ht. }
    destruct (new_URL serverUrl) as [su|] eqn:Hs.
    2: { unfold shouldAttachServerAuthHeaders in Ht.
         destruct (truthy_string u); cbn [negb] in Ht; [|discriminate Ht].
         rewrite shouldAttach_try_throws in Ht by (by right). discriminate Ht. }
    rewrite (shouldAttach_parsed _ _ _ _ Hu Hs) in Ht.
    injection Ht as Ht. apply andb_true_iff in Ht as [Ho Hp].
    exists u, ru, su. repeat split; try done. by apply String.eqb_eq.
  - intros (u & ru & su & -> & Hu & Hs & Ho & Hp).
    rewrite (shouldAttach_parsed _ _ _ _ Hu Hs), Hp, Ho, String.eqb_refl. done.
Qed.

(** X12.  When no client is registered for the server, so that the lookup
    of lines 44-45 throws, the render still completes, and the resolved
    source and placeholder refer to the caller's own header objects: no
    header is attached, also for a URI on the server's API. *)
Theorem render_without_client_attaches_nothing `{URLParser}
    (getRequestHeaders : string → completion positive) (p : ExpoImageProps)
    (serverUrl : string) (h : heap) :
  getRequestHeaders serverUrl = Throw →
  ∃ source placeholder h',
    ExpoImage_render getRequestHeaders p serverUrl h = Normal (source, placeholder, h')
    ∧ source_headers source = source_headers (props_source p)
    ∧ placeholder_headers placeholder = placeholder_headers (props_placeholder p).
Proof.
  intros Hg. unfold ExpoImage_render, requestHeaders_memo, mbind at 1, M_mbind.
  unfold mbind, completion_mbind. rewrite Hg. cbn.
  destruct (ExpoImage_steps p serverUrl None h)
    as (a_s & a_p & source & placeholder & _ & _ & Hr & Hhs & Hhp & _).
  exists source, placeholder. eexists. split; [exact Hr|].
  rewrite Hhs, Hhp, !headers_step_ref_caller by apply andb_false_r.
  split; [by destruct (props_source p)|by destruct (props_placeholder p)].
Qed.

Lemma render_without_client_attaches_nothing_witness :
  ∃ source placeholder h',
    ExpoImage_render no_client mixed_props "https://chat.example.com" client_store
    = Normal (source, placeholder, h')
    ∧ source_headers source = Some 1%positive
    ∧ placeholder_headers placeholder = Some 1%positive.
Proof.
  apply (render_without_client_attaches_nothing no_client mixed_props
           "https://chat.example.com" client_store).
  reflexivity.
Defined.

(** X13.  A source on the server's origin with a path under [/api/v4/]
    carries, after the render, every entry of the server's headers other
    than [Accept] that the caller's headers do not override, in a header
    object of its own that is neither the caller's nor the server's. *)
Theorem api_source_carries_server_headers `{URLParser} (p : ExpoImageProps)
    (serverUrl : string) (l : loc) (h : heap)
    (s : ImageSource) (u : string) (ru su : URL) :
  props_source p = SrcObject s →
  uri s = Some u →
  new_URL u = Normal ru →
  new_URL serverUrl = Normal su →
  origin ru = origin su →
  startsWith "/api/v4/" (pathname ru) = true →
  allocated h (Some l) →
  allocated h (headers s) →
  ∃ source placeholder h',
    ExpoImage p serverUrl (Some l) h = Normal (source, placeholder, h')
    ∧ source_headers source ≠ Some l
    ∧ (is_Some (headers s) → source_headers source ≠ headers s)
    ∧ ∀ k v, k ≠ "Accept" →
        read_headers h (Some l) !! k = Some v →
        read_headers h (headers s) !! k = None →
        read_headers h' (source_headers source) !! k = Some v.
Proof.
  intros Hp Hu Hru Hsu Ho Hpre Hl Hal.
  destruct (ExpoImage_steps p serverUrl (Some l) h)
    as (a_s & a_p & source & placeholder & Has & _ & Hr & Hhs & _).
  rewrite Hp in Has, Hr, Hhs. cbn [source_fields] in Has, Hr, Hhs.
  rewrite Hu, (shouldAttach_parsed _ _ _ _ Hru Hsu), Ho, String.eqb_refl, Hpre in Has.
  injection Has as <-.
  exists source, placeholder. eexists. split; [exact Hr|].
  assert (headers_step_ref true (Some l) (headers s) h = Some (fresh (dom h))) as Hnew
    by reflexivity.
  split; [|split].
  - rewrite Hhs, Hnew. intros [= E]. by destruct (fresh_not_allocated h l).
  - intros [c Hc]. rewrite Hhs, Hnew, Hc. intros [= E].
    rewrite Hc in Hal. by destruct (fresh_not_allocated h c).
  - intros k v Hk Hsrv Hcal. rewrite Hhs.
    rewrite headers_step_frame by (by apply headers_step_ref_allocated || done).
    rewrite headers_step_entry by done. unfold merged_entry. cbn [andb truthy_ref].
    by rewrite Hcal.
Qed.

Lemma api_source_carries_server_headers_witness :
  ∃ source placeholder h',
    ExpoImage mixed_props "https://chat.example.com" (Some 2%positive) client_store
    = Normal (source, placeholder, h')
    ∧ source_headers source ≠ Some 2%positive
    ∧ (is_Some (Some 1%positive) → source_headers source ≠ Some 1%positive)
    ∧ ∀ k v, k ≠ "Accept" →
        read_headers client_store (Some 2%positive) !! k = Some v →
        read_headers client_store (Some 1%positive) !! k = None →
        read_headers h' (source_headers source) !! k = Some v.
Proof.
  apply (api_source_carries_server_headers mixed_props "https://chat.example.com"
           2%positive client_store api_image_with_headers
           "https://chat.example.com/api/v4/files/1"
           {| origin := "https://chat.example.com"; pathname := "/api/v4/files/1" |}
           {| origin := "https://chat.example.com"; pathname := "/" |}).
  - reflexivity.
  - reflexivity.
  - reflexivity.
  - reflexivity.
  - reflexivity.
  - reflexivity.
  - vm_compute. by eexists.
  - vm_compute. by eexists.
Defined.
